(** * Scene message reconciliation (rendering/Scene.cc)

    A shallow embedding of the message handling of
    [gazebo::rendering::Scene]: the receive callbacks that fill the
    pending-message lists, and [Scene::PreRender], which folds the pending
    messages into the visual and light registries once per frame.

    The registries are [std::map]s from the identifier to a pointer that
    the map owns (one [new] per key, [delete] on erase), so they are
    modelled as finite maps from the identifier to the object.  The other
    references to a visual (the parent handed to the constructor, the
    visual attached to the selection object) are modelled by the key under
    which that visual is registered at the time of the call. *)

From stdpp Require Import gmap strings list fin_maps pretty.

(** ** Payloads and collaborating classes *)

(** Types that Scene.cc only passes along. *)
Class Payloads := {
  Pose : Type;        (* common::Pose3d, the result of Message::Convert *)
  Color : Type;       (* common::Color *)
  VisualBody : Type;  (* the fields of msgs::Visual that Scene.cc never reads *)
  LightBody : Type    (* the fields of msgs::Light that Scene.cc never reads *)
}.

Section Messages.
Context `{Payloads}.

(** msgs::Visual::Action; Scene.cc only tests for [DELETE]. *)
Inductive VisualAction := UPDATE | DELETE.

Record VisualMsg := {
  v_str_id : string;                 (* header().str_id() *)
  v_action : option VisualAction;    (* has_action() / action() *)
  v_parent_id : option string;       (* has_parent_id() / parent_id() *)
  v_body : VisualBody
}.

Record PoseMsg := {
  p_str_id : string;                 (* header().str_id() *)
  p_pose : Pose                      (* common::Message::Convert(msg) *)
}.

Record LightMsg := {
  l_str_id : string;                 (* header().str_id() *)
  l_body : LightBody
}.

Record SelectionMsg := {
  s_str_id : string                  (* header().str_id() *)
}.

Record SceneMsg := {
  scene_visual : list VisualMsg;     (* visual(i), i < visual_size() *)
  scene_pose : list PoseMsg;         (* pose(i), i < pose_size() *)
  scene_light : list LightMsg;       (* light(i), i < light_size() *)
  scene_ambient : option Color       (* has_ambient() / ambient() *)
}.

(** [msg_->has_action() && msg_->action() == msgs::Visual::DELETE] *)
Definition is_delete (m : VisualMsg) : bool :=
  match v_action m with
  | Some DELETE => true
  | _ => false
  end.
End Messages.

(** The methods of rendering::Visual and rendering::Light that Scene.cc
    calls.  Their bodies are in Visual.cc and Light.cc; they are taken as
    an interface.  [Visual_new name parent] is [new Visual(name, parent)],
    where [parent] is [Some k] for the visual registered under [k] and
    [None] for the scene itself. *)
Class Entities `{Payloads} := {
  Visual : Type;
  Visual_new : string → option string → Visual;
  LoadFromMsg : VisualMsg → Visual → Visual;
  UpdateFromMsg : VisualMsg → Visual → Visual;
  SetPose : Pose → Visual → Visual;
  Light : Type;
  Light_new : Light;
  Light_LoadFromMsg : LightMsg → Light → Light
}.

(** Modelled from the spec: Visual::GetPose and the body of Visual::SetPose
    are in Visual.cc, which is not among the sources.  The spec's
    [applyPose] "sets pose directly", so reading the pose after
    [SetPose p] gives [p]. *)
Class PoseReadback `{Entities} := {
  GetPose : Visual → Pose;
  GetPose_SetPose : ∀ p v, GetPose (SetPose p v) = p
}.

(** ** The scene state *)

Section SceneState.
Context `{Entities}.

(** The members of Scene that the message handling reads or writes.
    [selectionObj] stands for what is attached to the scene's SelectionObj:
    the key of the attached visual, or [None] when nothing is attached. *)
Record Scene := mkScene {
  visualMsgs : list VisualMsg;
  lightMsgs : list LightMsg;
  poseMsgs : list PoseMsg;
  selectionMsg : option SelectionMsg;
  visuals : gmap string Visual;
  lights : gmap string Light;
  selectionObj : option string;
  ambientColor : Color
}.

Definition set_visualMsgs (x : list VisualMsg) (s : Scene) : Scene :=
  mkScene x (lightMsgs s) (poseMsgs s) (selectionMsg s) (visuals s)
          (lights s) (selectionObj s) (ambientColor s).
Definition set_lightMsgs (x : list LightMsg) (s : Scene) : Scene :=
  mkScene (visualMsgs s) x (poseMsgs s) (selectionMsg s) (visuals s)
          (lights s) (selectionObj s) (ambientColor s).
Definition set_poseMsgs (x : list PoseMsg) (s : Scene) : Scene :=
  mkScene (visualMsgs s) (lightMsgs s) x (selectionMsg s) (visuals s)
          (lights s) (selectionObj s) (ambientColor s).
Definition set_selectionMsg (x : option SelectionMsg) (s : Scene) : Scene :=
  mkScene (visualMsgs s) (lightMsgs s) (poseMsgs s) x (visuals s)
          (lights s) (selectionObj s) (ambientColor s).
Definition set_visuals (x : gmap string Visual) (s : Scene) : Scene :=
  mkScene (visualMsgs s) (lightMsgs s) (poseMsgs s) (selectionMsg s) x
          (lights s) (selectionObj s) (ambientColor s).
Definition set_lights (x : gmap string Light) (s : Scene) : Scene :=
  mkScene (visualMsgs s) (lightMsgs s) (poseMsgs s) (selectionMsg s)
          (visuals s) x (selectionObj s) (ambientColor s).

(** Modelled from the spec: SelectionObj::Attach is in SelectionObj.cc, which
    is not among the sources.  The selection object holds at most one
    visual ("mark that entity selected and clear any prior selection"):
    [Attach(v)] replaces what is attached by [v], and [Attach(NULL)] leaves
    nothing attached. *)
Definition Attach (x : option string) (s : Scene) : Scene :=
  mkScene (visualMsgs s) (lightMsgs s) (poseMsgs s) (selectionMsg s)
          (visuals s) (lights s) x (ambientColor s).

(** Scene::SetAmbientColor, as far as the scene's own state goes. *)
Definition SetAmbientColor (x : Color) (s : Scene) : Scene :=
  mkScene (visualMsgs s) (lightMsgs s) (poseMsgs s) (selectionMsg s)
          (visuals s) (lights s) (selectionObj s) x.

(** ** Receive callbacks *)

(** Scene::ReceiveSceneMsg: every embedded message is pushed to the back
    of its list, in the order visual, pose, light; then the ambient
    colour is set when the message has one. *)
Definition ReceiveSceneMsg (msg : SceneMsg) (s : Scene) : Scene :=
  let s1 := set_visualMsgs (visualMsgs s ++ scene_visual msg) s in
  let s2 := set_poseMsgs (poseMsgs s1 ++ scene_pose msg) s1 in
  let s3 := set_lightMsgs (lightMsgs s2 ++ scene_light msg) s2 in
  match scene_ambient msg with
  | Some c => SetAmbientColor c s3
  | None => s3
  end.

(** Scene::ReceiveVisualMsg *)
Definition ReceiveVisualMsg (msg : VisualMsg) (s : Scene) : Scene :=
  set_visualMsgs (visualMsgs s ++ [msg]) s.

(** The loop of Scene::ReceivePoseMsg: erase the first pending message
    with the identifier [id], then [break]. *)
Fixpoint erase_old (id : string) (l : list PoseMsg) : list PoseMsg :=
  match l with
  | [] => []
  | p :: rest =>
      if decide (p_str_id p = id) then rest else p :: erase_old id rest
  end.

(** Scene::ReceivePoseMsg *)
Definition ReceivePoseMsg (msg : PoseMsg) (s : Scene) : Scene :=
  set_poseMsgs (erase_old (p_str_id msg) (poseMsgs s) ++ [msg]) s.

(** Scene::ReceiveLightMsg *)
Definition ReceiveLightMsg (msg : LightMsg) (s : Scene) : Scene :=
  set_lightMsgs (lightMsgs s ++ [msg]) s.

(** Scene::OnSelectionMsg *)
Definition OnSelectionMsg (msg : SelectionMsg) (s : Scene) : Scene :=
  set_selectionMsg (Some msg) s.

(** ** Applying the messages *)

(** Scene::ProcessVisualMsg *)
Definition ProcessVisualMsg (msg : VisualMsg) (s : Scene) : Scene :=
  let iter := visuals s !! v_str_id msg in
  if is_delete msg then
    match iter with
    | Some _ => set_visuals (delete (v_str_id msg) (visuals s)) s
    | None => s
    end
  else
    match iter with
    | Some v =>
        set_visuals (<[v_str_id msg := UpdateFromMsg msg v]> (visuals s)) s
    | None =>
        let parent :=
          match v_parent_id msg with
          | Some pid =>
              match visuals s !! pid with
              | Some _ => Some pid
              | None => None
              end
          | None => None
          end in
        let visual := LoadFromMsg msg (Visual_new (v_str_id msg) parent) in
        set_visuals (<[v_str_id msg := visual]> (visuals s)) s
    end.

(** Scene::ProcessLightMsg *)
Definition ProcessLightMsg (msg : LightMsg) (s : Scene) : Scene :=
  match lights s !! l_str_id msg with
  | None =>
      let light := Light_LoadFromMsg msg Light_new in
      set_lights (<[l_str_id msg := light]> (lights s)) s
  | Some _ => s
  end.

(** The pose loop of Scene::PreRender over the pending pose messages
    [pending]: a message whose visual is registered is applied with
    [SetPose] and erased from the list, any other message is stepped
    over.  Returns the messages left in the list and the registry. *)
Fixpoint pose_loop (pending : list PoseMsg) (vis : gmap string Visual)
  : list PoseMsg * gmap string Visual :=
  match pending with
  | [] => ([], vis)
  | p :: rest =>
      match vis !! p_str_id p with
      | Some v =>
          pose_loop rest (<[p_str_id p := SetPose (p_pose p) v]> vis)
      | None =>
          let r := pose_loop rest vis in (p :: r.1, r.2)
      end
  end.

(** The selection block that ends Scene::PreRender: a pending selection
    message is looked up in the visual registry, the visual found (or
    NULL) is attached to the selection object, and the message is reset. *)
Definition select_pending (s : Scene) : Scene :=
  match selectionMsg s with
  | Some sel =>
      let s' :=
        match visuals s !! s_str_id sel with
        | Some _ => Attach (Some (s_str_id sel)) s
        | None => Attach None s
        end in
      set_selectionMsg None s'
  | None => s
  end.

(** Scene::PreRender *)
Definition PreRender (s : Scene) : Scene :=
  (* Process the visual messages *)
  let s1 := foldl (λ acc m, ProcessVisualMsg m acc) s (visualMsgs s) in
  let s2 := set_visualMsgs [] s1 in
  (* Process the light messages *)
  let s3 := foldl (λ acc m, ProcessLightMsg m acc) s2 (lightMsgs s2) in
  let s4 := set_lightMsgs [] s3 in
  (* Process all the Pose messages last *)
  let r := pose_loop (poseMsgs s4) (visuals s4) in
  let s5 := set_visuals r.2 (set_poseMsgs r.1 s4) in
  select_pending s5.

(** ** Sequences of callbacks and frames *)

(** What the transport delivers to the scene's subscriptions. *)
Inductive Callback :=
  | OnScene (m : SceneMsg)
  | OnVisual (m : VisualMsg)
  | OnPose (m : PoseMsg)
  | OnLight (m : LightMsg)
  | OnSelection (m : SelectionMsg).

(** The body of the subscribed method. *)
Definition callback_body (cb : Callback) : Scene → Scene :=
  match cb with
  | OnScene m => ReceiveSceneMsg m
  | OnVisual m => ReceiveVisualMsg m
  | OnPose m => ReceivePoseMsg m
  | OnLight m => ReceiveLightMsg m
  | OnSelection m => OnSelectionMsg m
  end.

(** One thing that happens to a scene: a callback runs to completion, or
    the pre-render signal fires and [PreRender] runs (one cycle). *)
Inductive Event :=
  | Deliver (cb : Callback)
  | Frame.

Definition handle (e : Event) (s : Scene) : Scene :=
  match e with
  | Deliver cb => callback_body cb s
  | Frame => PreRender s
  end.

Definition run (evs : list Event) (s : Scene) : Scene :=
  foldl (λ acc e, handle e acc) s evs.

(** Identifiers of the visual messages, and of the pose messages, that an
    event puts into the pending lists. *)
Definition visual_ids (e : Event) : list string :=
  match e with
  | Deliver (OnScene m) => v_str_id <$> scene_visual m
  | Deliver (OnVisual m) => [v_str_id m]
  | _ => []
  end.

Definition pose_ids (e : Event) : list string :=
  match e with
  | Deliver (OnScene m) => p_str_id <$> scene_pose m
  | Deliver (OnPose m) => [p_str_id m]
  | _ => []
  end.

Definition is_frame (e : Event) : bool :=
  match e with Frame => true | _ => false end.

(** The event carries neither a visual nor a pose message for [X]. *)
Definition quiet (X : string) (e : Event) : Prop :=
  (X ∉ visual_ids e) ∧ (X ∉ pose_ids e).

#[export] Instance quiet_dec X e : Decision (quiet X e).
Proof. unfold quiet. apply _. Defined.

(** The most recently pushed pending message for [X], if any. *)
Definition latest_visual (X : string) (l : list VisualMsg) : option VisualMsg :=
  last (filter (λ m, v_str_id m = X) l).

Definition latest_pose (X : string) (l : list PoseMsg) : option PoseMsg :=
  last (filter (λ p, p_str_id p = X) l).

(** Number of pending pose messages for [X]. *)
Definition pending_poses (X : string) (s : Scene) : nat :=
  length (filter (λ p, p_str_id p = X) (poseMsgs s)).

(** The first pending light message for [X], if any. *)
Definition first_light (X : string) (l : list LightMsg) : option LightMsg :=
  head (filter (λ m, l_str_id m = X) l).

(** The event is not a scene message with pose entries in it. *)
Definition no_embedded_poses (e : Event) : bool :=
  match e with
  | Deliver (OnScene m) =>
      match scene_pose m with
      | [] => true
      | _ => false
      end
  | _ => true
  end.

(** ** The light registry operation in the spec's words *)

(** The spec's [upsertLight(id, payload)], "insert-or-merge": an unknown
    identifier gets a new light loaded from the message, and for a known
    one the message is merged into the existing light.  Light.cc offers
    [LoadFromMsg] as the only way to put a message into a light. *)
Definition upsertLight (msg : LightMsg) (s : Scene) : Scene :=
  match lights s !! l_str_id msg with
  | None =>
      set_lights (<[l_str_id msg := Light_LoadFromMsg msg Light_new]> (lights s)) s
  | Some l =>
      set_lights (<[l_str_id msg := Light_LoadFromMsg msg l]> (lights s)) s
  end.

(** ** Threads and the receive mutex

    The callbacks run on transport threads and [PreRender] on the render
    thread.  A [boost::mutex::scoped_lock] on [receiveMutex] as the first
    statement of a method takes the mutex on entry and releases it when
    the method returns.  Each thread is modelled by a program counter
    and advances by one atomic step at a time; steps of different threads
    interleave. *)

Inductive Thread :=
  | Consumer               (* the thread that runs PreRender *)
  | Producer (i : nat).    (* the i-th transport thread *)

(** [OnSelectionMsg] is the one callback without a [scoped_lock]. *)
Definition takes_lock (cb : Callback) : bool :=
  match cb with
  | OnSelection _ => false
  | _ => true
  end.

(** Where a transport thread stands in its callback. *)
Inductive ProducerPc :=
  | Entering (cb : Callback)   (* at the first statement of the method *)
  | Holding (cb : Callback)    (* mutex taken, body not yet run *)
  | Leaving                    (* body run, mutex still held *)
  | Returned.

(** Where the render thread stands in [PreRender].  The loops carry the
    position of their iterator in the pending list, and one iteration of
    a loop is one step.  The selection block is four steps, one for each
    statement that reads or writes [selectionMsg] or the selection
    object: [OnSelectionMsg] takes no lock and can store a message
    between any two of them.  [viter] is a local of the block; the key it
    points at (or nothing, for [end()]) is carried in the program
    counter. *)
Inductive ConsumerPc :=
  | CEnter                     (* at the scoped_lock *)
  | CVisual (i : nat)          (* visual loop, vIter at position i *)
  | CLight (i : nat)           (* light loop, lIter at position i *)
  | CPose (i : nat)            (* pose loop, pIter at position i *)
  | CSelect                    (* at [if (this->selectionMsg)] *)
  | CFind                      (* at [viter = this->visuals.find(...)] *)
  | CAttach (viter : option string)   (* at the call of Attach *)
  | CReset                     (* at [this->selectionMsg.reset()] *)
  | CExit                      (* at the closing brace, mutex still held *)
  | CReturned.

Record Config := mkConfig {
  scene : Scene;
  receiveMutex : option Thread;     (* the owner, if locked *)
  consumer : ConsumerPc;
  producers : list ProducerPc
}.

(** One step of [PreRender]; [None] when the thread cannot move.  The
    lookup at [CFind] reads [selectionMsg] again, after the test at
    [CSelect]; on a null pointer it would have nothing to read. *)
Definition consumer_step (c : Config) : option Config :=
  let s := scene c in
  match consumer c with
  | CEnter =>
      match receiveMutex c with
      | None => Some (mkConfig s (Some Consumer) (CVisual 0) (producers c))
      | Some _ => None
      end
  | CVisual i =>
      match visualMsgs s !! i with
      | Some m =>
          Some (mkConfig (ProcessVisualMsg m s) (receiveMutex c)
                         (CVisual (S i)) (producers c))
      | None =>
          Some (mkConfig (set_visualMsgs [] s) (receiveMutex c)
                         (CLight 0) (producers c))
      end
  | CLight i =>
      match lightMsgs s !! i with
      | Some m =>
          Some (mkConfig (ProcessLightMsg m s) (receiveMutex c)
                         (CLight (S i)) (producers c))
      | None =>
          Some (mkConfig (set_lightMsgs [] s) (receiveMutex c)
                         (CPose 0) (producers c))
      end
  | CPose i =>
      match poseMsgs s !! i with
      | Some p =>
          match visuals s !! p_str_id p with
          | Some v =>
              let s1 :=
                set_visuals (<[p_str_id p := SetPose (p_pose p) v]> (visuals s)) s in
              Some (mkConfig (set_poseMsgs (delete i (poseMsgs s1)) s1)
                             (receiveMutex c) (CPose i) (producers c))
          | None =>
              Some (mkConfig s (receiveMutex c) (CPose (S i)) (producers c))
          end
      | None => Some (mkConfig s (receiveMutex c) CSelect (producers c))
      end
  | CSelect =>
      match selectionMsg s with
      | Some _ => Some (mkConfig s (receiveMutex c) CFind (producers c))
      | None => Some (mkConfig s (receiveMutex c) CExit (producers c))
      end
  | CFind =>
      match selectionMsg s with
      | Some sel =>
          let viter :=
            match visuals s !! s_str_id sel with
            | Some _ => Some (s_str_id sel)
            | None => None
            end in
          Some (mkConfig s (receiveMutex c) (CAttach viter) (producers c))
      | None => None
      end
  | CAttach viter =>
      Some (mkConfig (Attach viter s) (receiveMutex c) CReset (producers c))
  | CReset =>
      Some (mkConfig (set_selectionMsg None s) (receiveMutex c) CExit
                     (producers c))
  | CExit => Some (mkConfig s None CReturned (producers c))
  | CReturned => None
  end.

(** One step of the callback of transport thread [i]. *)
Definition producer_step (i : nat) (c : Config) : option Config :=
  match producers c !! i with
  | Some (Entering cb) =>
      if takes_lock cb then
        match receiveMutex c with
        | None =>
            Some (mkConfig (scene c) (Some (Producer i)) (consumer c)
                           (<[i := Holding cb]> (producers c)))
        | Some _ => None
        end
      else
        Some (mkConfig (callback_body cb (scene c)) (receiveMutex c)
                       (consumer c) (<[i := Returned]> (producers c)))
  | Some (Holding cb) =>
      Some (mkConfig (callback_body cb (scene c)) (receiveMutex c)
                     (consumer c) (<[i := Leaving]> (producers c)))
  | Some Leaving =>
      Some (mkConfig (scene c) None (consumer c)
                     (<[i := Returned]> (producers c)))
  | Some Returned | None => None
  end.

Definition thread_step (t : Thread) (c : Config) : option Config :=
  match t with
  | Consumer => consumer_step c
  | Producer i => producer_step i c
  end.

(** Run the threads in the order given; [None] if a chosen thread cannot
    move. *)
Fixpoint schedule (ts : list Thread) (c : Config) : option Config :=
  match ts with
  | [] => Some c
  | t :: rest =>
      match thread_step t c with
      | Some c' => schedule rest c'
      | None => None
      end
  end.

(** What a step of [PreRender] applies to the registries or to the
    selection object: the message handed to [ProcessVisualMsg] or to
    [ProcessLightMsg], the pose message whose pose goes to [SetPose], or
    the argument of [Attach]. *)
Inductive Applied :=
  | ApVisual (m : VisualMsg)
  | ApLight (m : LightMsg)
  | ApPose (p : PoseMsg)
  | ApSelection (viter : option string).

(** What the next step of the render thread applies, if it applies
    anything: a loop does when its iterator points at a message (the pose
    loop only when the visual is found), and so does the call of
    Attach. *)
Definition step_applies (c : Config) : option Applied :=
  let s := scene c in
  match consumer c with
  | CVisual i => ApVisual <$> visualMsgs s !! i
  | CLight i => ApLight <$> lightMsgs s !! i
  | CPose i =>
      match poseMsgs s !! i with
      | Some p =>
          match visuals s !! p_str_id p with
          | Some _ => Some (ApPose p)
          | None => None
          end
      | None => None
      end
  | CAttach viter => Some (ApSelection viter)
  | _ => None
  end.

(** What the render thread applies in its next [n] steps, in the order in
    which it does. *)
Fixpoint consumer_trace (n : nat) (c : Config) : list Applied :=
  match n with
  | 0 => []
  | S n' =>
      match consumer_step c with
      | Some c' => option_list (step_applies c) ++ consumer_trace n' c'
      | None => []
      end
  end.

(** Before anything runs: the mutex is free, the render thread is about to
    call [PreRender], and each transport thread is about to run one
    callback. *)
Definition start (s : Scene) (cbs : list Callback) : Config :=
  mkConfig s None CEnter (Entering <$> cbs).

(** The render thread is between taking the mutex and having released it. *)
Definition in_cycle (pc : ConsumerPc) : bool :=
  match pc with
  | CEnter | CReturned => false
  | _ => true
  end.

(** The transport thread is between taking the mutex and releasing it. *)
Definition in_callback (pc : ProducerPc) : bool :=
  match pc with
  | Holding _ | Leaving => true
  | _ => false
  end.

(** The render thread is applying messages to the registries. *)
Definition applying (pc : ConsumerPc) : bool :=
  match pc with
  | CVisual _ | CLight _ | CPose _ | CSelect | CFind | CAttach _ | CReset =>
      true
  | _ => false
  end.

(** The mutex and the program counters agree: the mutex is free exactly
    when no thread is between taking and releasing it, and its owner is
    the one thread that is. *)
Definition mutex_consistent (c : Config) : Prop :=
  match receiveMutex c with
  | None =>
      in_cycle (consumer c) = false
      ∧ ∀ i pc, producers c !! i = Some pc → in_callback pc = false
  | Some Consumer =>
      in_cycle (consumer c) = true
      ∧ ∀ i pc, producers c !! i = Some pc → in_callback pc = false
  | Some (Producer j) =>
      in_cycle (consumer c) = false
      ∧ (∃ pc, producers c !! j = Some pc ∧ in_callback pc = true)
      ∧ ∀ i pc, producers c !! i = Some pc → in_callback pc = true → i = j
  end.

(** Some thread has not returned yet. *)
Definition unfinished (c : Config) : Prop :=
  consumer c ≠ CReturned ∨ ∃ i pc, producers c !! i = Some pc ∧ pc ≠ Returned.



(** Every thread has returned. *)
Definition finished (c : Config) : Prop :=
  consumer c = CReturned ∧ Forall (λ pc, pc = Returned) (producers c).





End SceneState.

(** ** The rest of the scene object: identifier, grids and cameras *)

(** The classes rendering::Grid, rendering::Camera and
    rendering::UserCamera, as far as Scene.cc uses them; their bodies are
    in files that are not among the sources.  [default_grid] is the grid
    of the constructor, [new Grid(this, 1, 1, 10, Color(1,1,0,1))]. *)
Class Views `{Payloads} := {
  Real : Type;                                   (* float *)
  Grid : Type;
  Grid_new : N → Real → Real → Color → Grid;     (* new Grid(this, ...) *)
  Grid_Init : Grid → Grid;                       (* grid->Init() *)
  default_grid : Grid;
  Camera : Type;
  Camera_new : string → Camera;                  (* new Camera(name, this) *)
  UserCamera : Type;
  UserCamera_new : string → UserCamera;          (* new UserCamera(name, this) *)
  UserCamera_Load : UserCamera → UserCamera;     (* camera->Load(null sdf) *)
  UserCamera_Init : UserCamera → UserCamera      (* camera->Init() *)
}.

Section SceneObject.
Context `{Views}.

(** 2^32, the number of values of an [unsigned int]. *)
Definition UINT_RANGE : N := 4294967296.

(** The members of Scene behind the getters: [manager] is whether the
    Ogre scene manager pointer is non-NULL. *)
Record SceneObj := mkSceneObj {
  name : string;
  id : N;
  idString : string;
  manager : bool;
  grids : list Grid;
  cameras : list Camera;
  userCameras : list UserCamera
}.

(** Scene::Scene: takes the value of the static [idCounter] as its id and
    increments the counter ([unsigned int], so modulo 2^32); [idString]
    is [boost::lexical_cast<std::string>(id)], the id in decimal.  Returns
    the new scene and the new value of [idCounter]. *)
Definition Scene_new (name_ : string) (idCounter : N) : SceneObj * N :=
  (mkSceneObj name_ idCounter (pretty idCounter) false [default_grid] [] [],
   ((idCounter + 1) mod UINT_RANGE)%N).

(** Scenes constructed one after the other. *)
Fixpoint construct_scenes (names : list string) (idCounter : N)
  : list SceneObj * N :=
  match names with
  | [] => ([], idCounter)
  | n :: rest =>
      let r := Scene_new n idCounter in
      let rs := construct_scenes rest r.2 in
      (r.1 :: rs.1, rs.2)
  end.

(** Scene::Init, as far as these members go: a scene manager is created
    and every grid is initialised. *)
Definition Init (o : SceneObj) : SceneObj :=
  mkSceneObj (name o) (id o) (idString o) true (Grid_Init <$> grids o)
             (cameras o) (userCameras o).

(** Scene::CreateGrid *)
Definition CreateGrid (cell_count : N) (cell_length line_width : Real)
    (color : Color) (o : SceneObj) : SceneObj :=
  let grid := Grid_new cell_count cell_length line_width color in
  let grid := if manager o then Grid_Init grid else grid in
  mkSceneObj (name o) (id o) (idString o) (manager o) (grids o ++ [grid])
             (cameras o) (userCameras o).

(** Scene::GetGrid: the grid, or NULL together with the error message
    that goes to [gzerr]. *)
Definition GetGrid (index : N) (o : SceneObj) : option Grid * option string :=
  if decide (N.of_nat (length (grids o)) ≤ index)%N
  then (None, Some ("Scene::GetGrid() Invalid index" +:+ String (Ascii.ascii_of_nat 10) ""))
  else (grids o !! N.to_nat index, None).

(** Scene::CreateCamera: returns the camera and the scene. *)
Definition CreateCamera (name_ : string) (o : SceneObj) : Camera * SceneObj :=
  let camera := Camera_new (name o +:+ "::" +:+ name_) in
  (camera,
   mkSceneObj (name o) (id o) (idString o) (manager o) (grids o)
              (cameras o ++ [camera]) (userCameras o)).

(** Scene::GetCameraCount: the size of the vector as an [unsigned int]. *)
Definition GetCameraCount (o : SceneObj) : N :=
  (N.of_nat (length (cameras o)) mod UINT_RANGE)%N.

(** Scene::GetCamera: the camera, or the null pointer when [index] is not
    below the size of the vector. *)
Definition GetCamera (index : N) (o : SceneObj) : option Camera :=
  if decide (index < N.of_nat (length (cameras o)))%N
  then cameras o !! N.to_nat index
  else None.

(** Scene::CreateUserCamera *)
Definition CreateUserCamera (name_ : string) (o : SceneObj)
  : UserCamera * SceneObj :=
  let camera := UserCamera_new (name o +:+ "::" +:+ name_) in
  let camera := UserCamera_Init (UserCamera_Load camera) in
  (camera,
   mkSceneObj (name o) (id o) (idString o) (manager o) (grids o)
              (cameras o) (userCameras o ++ [camera])).

(** Scene::GetUserCameraCount *)
Definition GetUserCameraCount (o : SceneObj) : N :=
  (N.of_nat (length (userCameras o)) mod UINT_RANGE)%N.

(** Scene::GetUserCamera *)
Definition GetUserCamera (index : N) (o : SceneObj) : option UserCamera :=
  if decide (index < N.of_nat (length (userCameras o)))%N
  then userCameras o !! N.to_nat index
  else None.

(** What a client can do to the scene object between construction and
    destruction. *)
Inductive SceneOp :=
  | OpInit
  | OpCreateGrid (cell_count : N) (cell_length line_width : Real) (color : Color)
  | OpCreateCamera (name_ : string)
  | OpCreateUserCamera (name_ : string).

Definition apply_op (op : SceneOp) (o : SceneObj) : SceneObj :=
  match op with
  | OpInit => Init o
  | OpCreateGrid n l w c => CreateGrid n l w c o
  | OpCreateCamera n => (CreateCamera n o).2
  | OpCreateUserCamera n => (CreateUserCamera n o).2
  end.

Definition apply_ops (ops : list SceneOp) (o : SceneObj) : SceneObj :=
  foldl (λ acc op, apply_op op acc) o ops.

End SceneObject.

(** ** Scene::GetMeshInformation

    The Ogre mesh is taken as the code reads it: a vertex buffer through
    the position of its j-th vertex, an index buffer through the values
    that the reads [pLong[k]] and [pShort[k]] of the locked buffer yield.
    These are not tied to the entries of the buffer here.  [pShort[k]]
    of a 16-bit buffer is its k-th entry; [pLong[k]] of a 32-bit buffer
    is its k-th entry only where [unsigned long] has 32 bits: where it
    has 64, as [size_t] is taken to have here, [pLong[k]] spans the
    entries 2k and 2k+1.  [transform] stands for
    [(orient * (pt * scale)) + position]. *)

Section MeshInformation.
Context {Vector3 : Type}.

(** 2^64, the number of values of a [size_t]. *)
Definition SIZE_RANGE : N := 18446744073709551616.

(** [+] and [+=] on [size_t]. *)
Definition size_add (x y : N) : N := ((x + y) mod SIZE_RANGE)%N.

Record VertexData := {
  vertexCount : N;
  vertex_at : N → Vector3      (* the position element of vertex j *)
}.

Record IndexData := {
  indexCount : N;
  use32bitindexes : bool;      (* ibuf->getType() == IT_32BIT *)
  pLong : N → N;               (* what the read pLong[k] yields *)
  pShort : N → N               (* what the read pShort[k] yields *)
}.

Record SubMesh := {
  useSharedVertices : bool;
  vertexData : VertexData;
  indexData : IndexData
}.

Record Mesh := {
  sharedVertexData : VertexData;
  subMeshes : list SubMesh     (* getSubMesh(i), i < getNumSubMeshes() *)
}.

(** The state of the first loop: [added_shared], [vertex_count],
    [index_count]. *)
Definition count_submesh (mesh : Mesh) (st : bool * N * N) (submesh : SubMesh)
  : bool * N * N :=
  let '(added_shared, vertex_count, index_count) := st in
  let st' :=
    if useSharedVertices submesh then
      if negb added_shared
      then (true, size_add vertex_count (vertexCount (sharedVertexData mesh)))
      else (added_shared, vertex_count)
    else
      (added_shared, size_add vertex_count (vertexCount (vertexData submesh))) in
  (st'.1, st'.2, size_add index_count (indexCount (indexData submesh))).

(** An array from [new T[n]]: a slot is [None] until it is written. *)
Definition new_array {A} (n : N) : list (option A) :=
  replicate (N.to_nat n) None.

(** [arr[i] = x]; no result when [i] is outside the array. *)
Definition write {A} (arr : list (option A)) (i : N) (x : A)
  : option (list (option A)) :=
  if decide (i < N.of_nat (length arr))%N
  then Some (<[N.to_nat i := Some x]> arr)
  else None.

(** The vertex loop: [n] more iterations from [j] on ([j] stays below
    [vertexCount], so [++j] does not wrap). *)
Fixpoint write_vertices (transform : Vector3 → Vector3) (vertex_data : VertexData)
    (current_offset j : N) (n : nat) (vertices : list (option Vector3))
  : option (list (option Vector3)) :=
  match n with
  | 0 => Some vertices
  | S n' =>
      match write vertices (size_add current_offset j)
                  (transform (vertex_at vertex_data j)) with
      | Some vertices' =>
          write_vertices transform vertex_data current_offset (j + 1)%N n' vertices'
      | None => None
      end
  end.

(** The index loop: [n] more iterations from [k] on, with
    [indices[index_offset++] = ...].  Returns [index_offset] and the
    array. *)
Fixpoint write_indices (index_data : IndexData) (k : N) (n : nat)
    (index_offset : N) (indices : list (option N))
  : option (N * list (option N)) :=
  match n with
  | 0 => Some (index_offset, indices)
  | S n' =>
      let x := if use32bitindexes index_data
               then pLong index_data k else pShort index_data k in
      match write indices index_offset x with
      | Some indices' =>
          write_indices index_data (k + 1)%N n' (size_add index_offset 1) indices'
      | None => None
      end
  end.

(** The local variables of the second loop, and the two arrays. *)
Record FillState := mkFillState {
  added_shared : bool;
  current_offset : N;
  shared_offset : N;
  next_offset : N;
  index_offset : N;
  vertices : list (option Vector3);
  indices : list (option N)
}.

(** One iteration of the second loop. *)
Definition fill_submesh (transform : Vector3 → Vector3) (mesh : Mesh)
    (submesh : SubMesh) (st : FillState) : option FillState :=
  let vertex_data :=
    if useSharedVertices submesh then sharedVertexData mesh
    else vertexData submesh in
  let copied :=
    if negb (useSharedVertices submesh)
       || (useSharedVertices submesh && negb (added_shared st))
    then
      let added := if useSharedVertices submesh then true else added_shared st in
      let shared := if useSharedVertices submesh then current_offset st
                    else shared_offset st in
      match write_vertices transform vertex_data (current_offset st) 0
              (N.to_nat (vertexCount vertex_data)) (vertices st) with
      | Some vertices' =>
          Some (added, shared,
                size_add (next_offset st) (vertexCount vertex_data), vertices')
      | None => None
      end
    else Some (added_shared st, shared_offset st, next_offset st, vertices st) in
  match copied with
  | Some (added, shared, next, vertices') =>
      let index_data := indexData submesh in
      let numTris := (indexCount index_data / 3)%N in
      match write_indices index_data 0 (N.to_nat (numTris * 3))
              (index_offset st) (indices st) with
      | Some (index_offset', indices') =>
          Some (mkFillState added next shared next index_offset' vertices' indices')
      | None => None
      end
  | None => None
  end.

Fixpoint fill_pass (transform : Vector3 → Vector3) (mesh : Mesh)
    (submeshes : list SubMesh) (st : FillState) : option FillState :=
  match submeshes with
  | [] => Some st
  | submesh :: rest =>
      match fill_submesh transform mesh submesh st with
      | Some st' => fill_pass transform mesh rest st'
      | None => None
      end
  end.

(** Scene::GetMeshInformation: [vertex_count], [vertices], [index_count]
    and [indices] as the caller gets them; no result when a write falls
    outside its array. *)
Definition GetMeshInformation (transform : Vector3 → Vector3) (mesh : Mesh)
  : option (N * list (option Vector3) * N * list (option N)) :=
  let '(_, vertex_count, index_count) :=
    foldl (count_submesh mesh) (false, 0%N, 0%N) (subMeshes mesh) in
  let st := mkFillState false 0 0 0 0 (new_array vertex_count)
                        (new_array index_count) in
  match fill_pass transform mesh (subMeshes mesh) st with
  | Some st' => Some (vertex_count, vertices st', index_count, indices st')
  | None => None
  end.

(** *** What the arrays should hold *)

(** The transformed positions of a vertex buffer, in order. *)
Definition vertex_list (transform : Vector3 → Vector3) (vd : VertexData)
  : list Vector3 :=
  (λ j, transform (vertex_at vd (N.of_nat j))) <$> seq 0 (N.to_nat (vertexCount vd)).

(** The vertices of the submeshes in order, the shared buffer once, at
    the first submesh that uses it. *)
Fixpoint mesh_vertices (transform : Vector3 → Vector3) (mesh : Mesh)
    (added : bool) (submeshes : list SubMesh) : list Vector3 :=
  match submeshes with
  | [] => []
  | sm :: rest =>
      if useSharedVertices sm then
        if added then mesh_vertices transform mesh true rest
        else vertex_list transform (sharedVertexData mesh)
             ++ mesh_vertices transform mesh true rest
      else vertex_list transform (vertexData sm)
           ++ mesh_vertices transform mesh added rest
  end.

(** What the code reads from an index buffer: [pLong[k]] or [pShort[k]],
    by the type of the buffer, for the [k] that make whole triangles. *)
Definition index_list (idata : IndexData) : list N :=
  (λ k, if use32bitindexes idata then pLong idata (N.of_nat k)
        else pShort idata (N.of_nat k))
  <$> seq 0 (N.to_nat (indexCount idata / 3 * 3)).

Definition mesh_indices (submeshes : list SubMesh) : list N :=
  concat ((λ sm, index_list (indexData sm)) <$> submeshes).

(** The sum of the [indexCount]s. *)
Definition index_total (submeshes : list SubMesh) : N :=
  foldr (λ sm acc, (indexCount (indexData sm) + acc)%N) 0%N submeshes.

End MeshInformation.

(** ** A small instance

    Poses, colours and message bodies are numbers; a visual records its
    name, its parent, its pose and the bodies loaded into it, newest
    first; a light is the body it was loaded from. *)

#[export] Instance toy_payloads : Payloads :=
  {| Pose := nat; Color := nat; VisualBody := nat; LightBody := nat |}.

Record ToyVisual := mkToyVisual {
  tv_name : string;
  tv_parent : option string;
  tv_pose : nat;
  tv_bodies : list nat
}.

#[export] Instance toy_entities : Entities :=
  {| Visual := ToyVisual;
     Visual_new := λ name parent, mkToyVisual name parent 0 [];
     LoadFromMsg := λ m v,
       mkToyVisual (tv_name v) (tv_parent v) (tv_pose v) [v_body m];
     UpdateFromMsg := λ m v,
       mkToyVisual (tv_name v) (tv_parent v) (tv_pose v) (v_body m :: tv_bodies v);
     SetPose := λ p v,
       mkToyVisual (tv_name v) (tv_parent v) p (tv_bodies v);
     Light := nat;
     Light_new := 0;
     Light_LoadFromMsg := λ m _, l_body m |}.

#[export] Instance toy_readback : PoseReadback :=
  {| GetPose := tv_pose; GetPose_SetPose := λ _ _, eq_refl |}.

#[export] Instance toy_views : Views :=
  {| Real := nat;
     Grid := N * nat * nat * nat * bool;
     Grid_new := λ n l w c, (n, l, w, c, false);
     Grid_Init := λ g, (g.1, true);
     default_grid := (1%N, 1, 10, 0, false);
     Camera := string;
     Camera_new := λ n, n;
     UserCamera := string * bool * bool;
     UserCamera_new := λ n, (n, false, false);
     UserCamera_Load := λ u, (u.1.1, true, u.2);
     UserCamera_Init := λ u, (u.1, true) |}.

(** A scene with nothing pending and nothing registered. *)
Definition toy_empty : Scene := mkScene [] [] [] None ∅ ∅ None 0.

Definition toy_visual (id : string) (body : nat) : VisualMsg :=
  {| v_str_id := id; v_action := None; v_parent_id := None; v_body := body |}.

Definition toy_delete (id : string) : VisualMsg :=
  {| v_str_id := id; v_action := Some DELETE; v_parent_id := None; v_body := 0 |}.

Definition toy_pose (id : string) (p : nat) : PoseMsg :=
  {| p_str_id := id; p_pose := p |}.

Definition toy_light (id : string) (body : nat) : LightMsg :=
  {| l_str_id := id; l_body := body |}.

Definition toy_select (id : string) : SelectionMsg :=
  {| s_str_id := id |}.

(** A mesh of numbers: the shared buffer holds 10, 11; the first and the
    third submesh use it, the second has its own vertices 20, 21, 22.
    The index counts are 3, 4 and 6. *)
Definition toy_vertex_data (count base : N) : VertexData (Vector3 := N) :=
  {| vertexCount := count; vertex_at := λ j, (base + j)%N |}.

Definition toy_index_data (count : N) (wide : bool) : IndexData :=
  {| indexCount := count; use32bitindexes := wide;
     pLong := λ k, (100 + k)%N; pShort := λ k, (200 + k)%N |}.

Definition toy_mesh : Mesh (Vector3 := N) :=
  {| sharedVertexData := toy_vertex_data 2 10;
     subMeshes :=
       [ {| useSharedVertices := true; vertexData := toy_vertex_data 0 0;
            indexData := toy_index_data 3 true |};
         {| useSharedVertices := false; vertexData := toy_vertex_data 3 20;
            indexData := toy_index_data 4 false |};
         {| useSharedVertices := true; vertexData := toy_vertex_data 0 0;
            indexData := toy_index_data 6 true |} ] |}.

(** The same with the index count 4 rounded down to whole triangles. *)
Definition toy_mesh_whole : Mesh (Vector3 := N) :=
  {| sharedVertexData := toy_vertex_data 2 10;
     subMeshes :=
       [ {| useSharedVertices := true; vertexData := toy_vertex_data 0 0;
            indexData := toy_index_data 3 true |};
         {| useSharedVertices := false; vertexData := toy_vertex_data 3 20;
            indexData := toy_index_data 3 false |} ] |}.

(** A scene object with one camera. *)
Definition toy_object : SceneObj :=
  (CreateCamera "left" (Scene_new "world" 0).1).2.



(** Two visuals are registered and a selection of "v1" is pending. *)
Definition toy_selected : Scene :=
  OnSelectionMsg (toy_select "v1")
    (PreRender (ReceiveVisualMsg (toy_visual "v2" 2)
                  (ReceiveVisualMsg (toy_visual "v1" 1) toy_empty))).

(** The render thread runs up to the call of Attach, the transport thread
    stores its selection, and the render thread finishes. *)
Definition toy_late_selection : list Thread :=
  [Consumer; Consumer; Consumer; Consumer; Consumer; Consumer;
   Producer 0;
   Consumer; Consumer; Consumer].

(** * Properties *)

Section SceneFacts.
Context `{Entities}.
Implicit Types (s : Scene) (X : string).

(** ** The frame of each operation *)

Lemma ProcessVisualMsg_frame (m : VisualMsg) s :
  ProcessVisualMsg m s = set_visuals (visuals (ProcessVisualMsg m s)) s.
Proof.
  unfold ProcessVisualMsg.
  destruct (is_delete m), (visuals s !! v_str_id m); by destruct s.
Qed.

Lemma ProcessLightMsg_frame (m : LightMsg) s :
  ProcessLightMsg m s = set_lights (lights (ProcessLightMsg m s)) s.
Proof.
  unfold ProcessLightMsg. destruct (lights s !! l_str_id m); by destruct s.
Qed.

Lemma visual_loop_frame (l : list VisualMsg) s :
  foldl (λ acc m, ProcessVisualMsg m acc) s l
  = set_visuals (visuals (foldl (λ acc m, ProcessVisualMsg m acc) s l)) s.
Proof.
  revert s. induction l as [|m l IH]; intros s; simpl.
  - by destruct s.
  - rewrite IH. rewrite (ProcessVisualMsg_frame m s) at 2. by destruct s.
Qed.

Lemma light_loop_frame (l : list LightMsg) s :
  foldl (λ acc m, ProcessLightMsg m acc) s l
  = set_lights (lights (foldl (λ acc m, ProcessLightMsg m acc) s l)) s.
Proof.
  revert s. induction l as [|m l IH]; intros s; simpl.
  - by destruct s.
  - rewrite IH. rewrite (ProcessLightMsg_frame m s) at 2. by destruct s.
Qed.

(** ** One visual message *)

Lemma ProcessVisualMsg_other (m : VisualMsg) s X :
  v_str_id m ≠ X →
  visuals (ProcessVisualMsg m s) !! X = visuals s !! X.
Proof.
  intros Hne. unfold ProcessVisualMsg.
  destruct (is_delete m), (visuals s !! v_str_id m); simpl;
    by rewrite ?lookup_delete_ne, ?lookup_insert_ne.
Qed.

Lemma ProcessVisualMsg_delete (m : VisualMsg) s :
  is_delete m = true →
  visuals (ProcessVisualMsg m s) !! v_str_id m = None.
Proof.
  intros Hd. unfold ProcessVisualMsg. rewrite Hd.
  destruct (visuals s !! v_str_id m) eqn:E; simpl; [|done].
  apply lookup_delete_eq.
Qed.

Lemma ProcessVisualMsg_upsert (m : VisualMsg) s :
  is_delete m = false →
  is_Some (visuals (ProcessVisualMsg m s) !! v_str_id m).
Proof.
  intros Hd. unfold ProcessVisualMsg. rewrite Hd.
  destruct (visuals s !! v_str_id m); simpl; rewrite lookup_insert_eq; eauto.
Qed.

(** ** The visual loop *)

Lemma latest_visual_snoc X (l : list VisualMsg) (m : VisualMsg) :
  latest_visual X (l ++ [m])
  = if decide (v_str_id m = X) then Some m else latest_visual X l.
Proof.
  unfold latest_visual. rewrite filter_app, filter_cons, filter_nil.
  case_decide.
  - apply last_snoc.
  - by rewrite app_nil_r.
Qed.

Lemma latest_pose_snoc X (l : list PoseMsg) (p : PoseMsg) :
  latest_pose X (l ++ [p])
  = if decide (p_str_id p = X) then Some p else latest_pose X l.
Proof.
  unfold latest_pose. rewrite filter_app, filter_cons, filter_nil.
  case_decide.
  - apply last_snoc.
  - by rewrite app_nil_r.
Qed.

Lemma visual_loop_untouched X (l : list VisualMsg) s :
  latest_visual X l = None →
  visuals (foldl (λ acc m, ProcessVisualMsg m acc) s l) !! X = visuals s !! X.
Proof.
  induction l as [|m l IH] using rev_ind; [done|].
  rewrite latest_visual_snoc, foldl_snoc. case_decide; [done|].
  intros Hl. rewrite ProcessVisualMsg_other by done. auto.
Qed.

Lemma visual_loop_deleted X (l : list VisualMsg) (m : VisualMsg) s :
  latest_visual X l = Some m → is_delete m = true →
  visuals (foldl (λ acc m, ProcessVisualMsg m acc) s l) !! X = None.
Proof.
  induction l as [|m' l IH] using rev_ind; [done|].
  rewrite latest_visual_snoc, foldl_snoc. case_decide as Hid.
  - intros [= ->] Hd. rewrite <- Hid. by apply ProcessVisualMsg_delete.
  - intros Hl Hd. rewrite ProcessVisualMsg_other by done. auto.
Qed.

Lemma visual_loop_registered X (l : list VisualMsg) (m : VisualMsg) s :
  latest_visual X l = Some m → is_delete m = false →
  is_Some (visuals (foldl (λ acc m, ProcessVisualMsg m acc) s l) !! X).
Proof.
  induction l as [|m' l IH] using rev_ind; [done|].
  rewrite latest_visual_snoc, foldl_snoc. case_decide as Hid.
  - intros [= ->] Hd. rewrite <- Hid. by apply ProcessVisualMsg_upsert.
  - intros Hl Hd. rewrite ProcessVisualMsg_other by done. auto.
Qed.

(** ** The pose loop *)

Lemma pose_loop_registered (l : list PoseMsg) (vis : gmap string Visual) X :
  (pose_loop l vis).2 !! X = None ↔ vis !! X = None.
Proof.
  revert vis. induction l as [|p l IH]; intros vis; simpl; [done|].
  destruct (vis !! p_str_id p) as [v|] eqn:E; simpl; [|apply IH].
  rewrite IH. destruct (decide (p_str_id p = X)) as [<-|Hne].
  - rewrite lookup_insert_eq, E. done.
  - by rewrite lookup_insert_ne.
Qed.

Lemma pose_loop_kept (l : list PoseMsg) (vis : gmap string Visual) :
  (pose_loop l vis).1 = filter (λ p, vis !! p_str_id p = None) l.
Proof.
  revert vis. induction l as [|p l IH]; intros vis; simpl; [done|].
  rewrite filter_cons.
  destruct (vis !! p_str_id p) as [v|] eqn:E; simpl.
  - rewrite IH.
    apply list_filter_iff. intros q.
    destruct (decide (p_str_id p = p_str_id q)) as [Heq|Hne].
    + rewrite <- Heq, lookup_insert_eq, E. done.
    + by rewrite lookup_insert_ne.
  - by rewrite IH.
Qed.

Lemma latest_pose_cons X (p : PoseMsg) (l : list PoseMsg) :
  latest_pose X (p :: l)
  = match latest_pose X l with
    | Some q => Some q
    | None => if decide (p_str_id p = X) then Some p else None
    end.
Proof.
  unfold latest_pose. rewrite filter_cons. case_decide.
  - apply last_cons.
  - by destruct (last _).
Qed.

Lemma pose_loop_untouched (l : list PoseMsg) (vis : gmap string Visual) X :
  latest_pose X l = None → (pose_loop l vis).2 !! X = vis !! X.
Proof.
  revert vis. induction l as [|p l IH]; intros vis; [done|].
  rewrite latest_pose_cons. simpl.
  destruct (latest_pose X l); [done|]. case_decide as Hid; [done|].
  intros _. destruct (vis !! p_str_id p); simpl; rewrite IH by done;
    [by rewrite lookup_insert_ne | done].
Qed.

Lemma pose_loop_latest (l : list PoseMsg) (vis : gmap string Visual) X
    (pm : PoseMsg) :
  is_Some (vis !! X) → latest_pose X l = Some pm →
  ∃ v, (pose_loop l vis).2 !! X = Some (SetPose (p_pose pm) v).
Proof.
  revert vis. induction l as [|p l IH]; intros vis [v Hv]; [done|].
  rewrite latest_pose_cons. simpl.
  destruct (latest_pose X l) as [q|] eqn:El.
  - intros [= ->].
    destruct (vis !! p_str_id p) as [w|] eqn:Ep; simpl.
    + apply IH; [|done].
      destruct (decide (p_str_id p = X)) as [<-|Hne].
      * rewrite lookup_insert_eq. eauto.
      * rewrite lookup_insert_ne by done. eauto.
    + apply IH; eauto.
  - case_decide as Hid; [|done]. intros [= ->].
    rewrite Hid, Hv. rewrite pose_loop_untouched, lookup_insert_eq by done.
    eauto.
Qed.

(** ** The fields of the scene after a cycle *)

Lemma select_pending_frame s :
  visualMsgs (select_pending s) = visualMsgs s
  ∧ lightMsgs (select_pending s) = lightMsgs s
  ∧ poseMsgs (select_pending s) = poseMsgs s
  ∧ visuals (select_pending s) = visuals s
  ∧ lights (select_pending s) = lights s
  ∧ selectionMsg (select_pending s) = None.
Proof.
  unfold select_pending. destruct (selectionMsg s) as [sel|] eqn:E; [|done].
  by destruct (visuals s !! s_str_id sel).
Qed.


Lemma ProcessLightMsg_lights (m : LightMsg) s s' :
  lights s = lights s' →
  lights (ProcessLightMsg m s) = lights (ProcessLightMsg m s').
Proof.
  intros E. unfold ProcessLightMsg. rewrite <- E.
  destruct (lights s !! l_str_id m); simpl; congruence.
Qed.

Lemma light_loop_lights (l : list LightMsg) s s' :
  lights s = lights s' →
  lights (foldl (λ acc m, ProcessLightMsg m acc) s l)
  = lights (foldl (λ acc m, ProcessLightMsg m acc) s' l).
Proof.
  revert s s'. induction l as [|m l IH]; intros s s' E; simpl; [done|].
  apply IH. by apply ProcessLightMsg_lights.
Qed.

(** [PreRender] in one piece: both message lists are cleared, the pose
    loop runs on the registry that the visual loop leaves, and the
    selection block comes last. *)
Lemma PreRender_unfold s :
  PreRender s
  = select_pending
      (mkScene [] []
         (pose_loop (poseMsgs s)
            (visuals (foldl (λ acc m, ProcessVisualMsg m acc) s (visualMsgs s)))).1
         (selectionMsg s)
         (pose_loop (poseMsgs s)
            (visuals (foldl (λ acc m, ProcessVisualMsg m acc) s (visualMsgs s)))).2
         (lights (foldl (λ acc m, ProcessLightMsg m acc) s (lightMsgs s)))
         (selectionObj s) (ambientColor s)).
Proof.
  unfold PreRender. rewrite (visual_loop_frame (visualMsgs s) s).
  generalize (visuals (foldl (λ acc m, ProcessVisualMsg m acc) s (visualMsgs s))).
  intros V. simpl. rewrite light_loop_frame. simpl.
  unfold set_visuals at 1. simpl. do 2 f_equal.
  by apply light_loop_lights.
Qed.

Lemma visuals_PreRender s :
  visuals (PreRender s)
  = (pose_loop (poseMsgs s)
       (visuals (foldl (λ acc m, ProcessVisualMsg m acc) s (visualMsgs s)))).2.
Proof.
  rewrite PreRender_unfold.
  by rewrite (proj1 (proj2 (proj2 (proj2 (select_pending_frame _))))).
Qed.

Lemma poseMsgs_PreRender s :
  poseMsgs (PreRender s)
  = (pose_loop (poseMsgs s)
       (visuals (foldl (λ acc m, ProcessVisualMsg m acc) s (visualMsgs s)))).1.
Proof.
  rewrite PreRender_unfold.
  by rewrite (proj1 (proj2 (proj2 (select_pending_frame _)))).
Qed.

Lemma visualMsgs_PreRender s : visualMsgs (PreRender s) = [].
Proof.
  rewrite PreRender_unfold. by rewrite (proj1 (select_pending_frame _)).
Qed.

Lemma lightMsgs_PreRender s : lightMsgs (PreRender s) = [].
Proof.
  rewrite PreRender_unfold.
  by rewrite (proj1 (proj2 (select_pending_frame _))).
Qed.

Lemma selectionMsg_PreRender s : selectionMsg (PreRender s) = None.
Proof.
  rewrite PreRender_unfold. apply select_pending_frame.
Qed.

(** What the selection object holds after a cycle, in terms of the
    registry that the cycle leaves. *)
Lemma selectionObj_PreRender s :
  selectionObj (PreRender s)
  = match selectionMsg s with
    | Some sel =>
        match visuals (PreRender s) !! s_str_id sel with
        | Some _ => Some (s_str_id sel)
        | None => None
        end
    | None => selectionObj s
    end.
Proof.
  rewrite visuals_PreRender, PreRender_unfold. unfold select_pending. simpl.
  destruct (selectionMsg s) as [sel|]; [|done].
  by destruct (_ !! s_str_id sel).
Qed.

(** The registry after a cycle holds [X] exactly when the visual loop
    leaves [X] registered. *)
Lemma PreRender_registered s X :
  visuals (PreRender s) !! X = None
  ↔ visuals (foldl (λ acc m, ProcessVisualMsg m acc) s (visualMsgs s)) !! X = None.
Proof. rewrite visuals_PreRender. apply pose_loop_registered. Qed.

Lemma poseMsgs_PreRender_filter s :
  poseMsgs (PreRender s)
  = filter (λ p, visuals (PreRender s) !! p_str_id p = None) (poseMsgs s).
Proof.
  rewrite poseMsgs_PreRender, pose_loop_kept.
  apply list_filter_iff. intros p. by rewrite PreRender_registered.
Qed.

(** ** Pending messages for one identifier *)

Lemma filter_none {A} (P : A → Prop) `{∀ x, Decision (P x)} (l : list A) :
  Forall (λ x, ¬ P x) l → filter P l = [].
Proof.
  induction 1 as [|x l Hx _ IH]; [done|].
  by rewrite filter_cons, decide_False.
Qed.

Lemma latest_visual_app_quiet X (l l' : list VisualMsg) :
  X ∉ v_str_id <$> l' → latest_visual X (l ++ l') = latest_visual X l.
Proof.
  intros Hq. unfold latest_visual. rewrite filter_app.
  replace (filter (λ m, v_str_id m = X) l') with (@nil VisualMsg).
  - by rewrite app_nil_r.
  - symmetry. apply filter_none, Forall_forall. intros m Hm Hid.
    apply Hq, list_elem_of_fmap. eauto.
Qed.

Lemma latest_pose_app_quiet X (l l' : list PoseMsg) :
  X ∉ p_str_id <$> l' → latest_pose X (l ++ l') = latest_pose X l.
Proof.
  intros Hq. unfold latest_pose. rewrite filter_app.
  replace (filter (λ p, p_str_id p = X) l') with (@nil PoseMsg).
  - by rewrite app_nil_r.
  - symmetry. apply filter_none, Forall_forall. intros m Hm Hid.
    apply Hq, list_elem_of_fmap. eauto.
Qed.

Lemma filter_erase_old_ne X Y (l : list PoseMsg) :
  Y ≠ X →
  filter (λ p, p_str_id p = X) (erase_old Y l) = filter (λ p, p_str_id p = X) l.
Proof.
  intros Hne. induction l as [|p l IH]; simpl; [done|].
  case_decide as Hid.
  - rewrite filter_cons, decide_False by congruence. done.
  - rewrite !filter_cons. by rewrite IH.
Qed.

Lemma filter_erase_old_eq X (l : list PoseMsg) :
  filter (λ p, p_str_id p = X) (erase_old X l)
  = tail (filter (λ p, p_str_id p = X) l).
Proof.
  induction l as [|p l IH]; simpl; [done|].
  case_decide as Hid.
  - by rewrite filter_cons, decide_True.
  - rewrite !filter_cons, !decide_False by done. done.
Qed.

Lemma latest_pose_filter X (Q : PoseMsg → Prop) `{∀ p, Decision (Q p)}
    (l : list PoseMsg) :
  (∀ p, p_str_id p = X → Q p) →
  latest_pose X (filter Q l) = latest_pose X l.
Proof.
  intros HQ. unfold latest_pose. f_equal.
  induction l as [|p l IH]; [done|].
  rewrite !filter_cons. case_decide as Hq; case_decide as Hid.
  - rewrite filter_cons, decide_True by done. by rewrite IH.
  - rewrite filter_cons, decide_False by done. done.
  - destruct Hq. auto.
  - done.
Qed.

Lemma latest_pose_filter_none X (Q : PoseMsg → Prop) `{∀ p, Decision (Q p)}
    (l : list PoseMsg) :
  (∀ p, p_str_id p = X → ¬ Q p) →
  latest_pose X (filter Q l) = None.
Proof.
  intros HQ. unfold latest_pose. apply last_None.
  apply filter_none, Forall_forall. intros p Hp Hid.
  apply list_elem_of_filter in Hp as [Hq _]. by apply (HQ p).
Qed.

(** ** One event *)

Lemma ReceiveSceneMsg_fields (m : SceneMsg) s :
  visualMsgs (ReceiveSceneMsg m s) = visualMsgs s ++ scene_visual m
  ∧ poseMsgs (ReceiveSceneMsg m s) = poseMsgs s ++ scene_pose m
  ∧ lightMsgs (ReceiveSceneMsg m s) = lightMsgs s ++ scene_light m
  ∧ visuals (ReceiveSceneMsg m s) = visuals s
  ∧ lights (ReceiveSceneMsg m s) = lights s
  ∧ selectionMsg (ReceiveSceneMsg m s) = selectionMsg s
  ∧ selectionObj (ReceiveSceneMsg m s) = selectionObj s.
Proof. unfold ReceiveSceneMsg. by destruct (scene_ambient m). Qed.

Lemma callback_visuals (cb : Callback) s :
  visuals (callback_body cb s) = visuals s.
Proof. destruct cb; try done. apply ReceiveSceneMsg_fields. Qed.

Lemma callback_latest_visual X (cb : Callback) s :
  X ∉ visual_ids (Deliver cb) →
  latest_visual X (visualMsgs (callback_body cb s))
  = latest_visual X (visualMsgs s).
Proof.
  destruct cb as [m|m|m|m|m]; simpl; intros Hq; try done.
  - rewrite (proj1 (ReceiveSceneMsg_fields m s)).
    by apply latest_visual_app_quiet.
  - rewrite latest_visual_snoc, decide_False; [done|].
    intros <-. apply Hq. by left.
Qed.

Lemma callback_latest_pose X (cb : Callback) s :
  X ∉ pose_ids (Deliver cb) →
  latest_pose X (poseMsgs (callback_body cb s)) = latest_pose X (poseMsgs s).
Proof.
  destruct cb as [m|m|m|m|m]; simpl; intros Hq; try done.
  - rewrite (proj1 (proj2 (ReceiveSceneMsg_fields m s))).
    by apply latest_pose_app_quiet.
  - assert (p_str_id m ≠ X) as Hne by (intros <-; apply Hq; by left).
    rewrite latest_pose_snoc, decide_False by done.
    unfold latest_pose. by rewrite filter_erase_old_ne.
Qed.

(** A cycle in which [X] does not get registered leaves the pending pose
    for [X] where it is. *)
Lemma PreRender_keeps_pending X s :
  visuals s !! X = None → latest_visual X (visualMsgs s) = None →
  visuals (PreRender s) !! X = None
  ∧ latest_pose X (poseMsgs (PreRender s)) = latest_pose X (poseMsgs s).
Proof.
  intros Hv Hl.
  assert (visuals (PreRender s) !! X = None) as Hn.
  { apply PreRender_registered. by rewrite visual_loop_untouched. }
  split; [done|]. rewrite poseMsgs_PreRender_filter.
  apply latest_pose_filter. by intros p ->.
Qed.

(** A cycle whose last visual message for [X] is not a delete applies the
    last pending pose for [X] and leaves no pose for [X] pending. *)
Lemma PreRender_resolves X (vm : VisualMsg) (pm : PoseMsg) s :
  latest_visual X (visualMsgs s) = Some vm → is_delete vm = false →
  latest_pose X (poseMsgs s) = Some pm →
  (∃ v, visuals (PreRender s) !! X = Some (SetPose (p_pose pm) v))
  ∧ latest_pose X (poseMsgs (PreRender s)) = None.
Proof.
  intros Hv Hd Hp.
  pose proof (visual_loop_registered X _ vm s Hv Hd) as Hreg.
  split.
  - rewrite visuals_PreRender. by apply pose_loop_latest.
  - rewrite poseMsgs_PreRender_filter. apply latest_pose_filter_none.
    intros p -> Hn. apply PreRender_registered in Hn.
    rewrite Hn in Hreg. by destruct Hreg.
Qed.


(** ** Sequences of events *)

Lemma run_snoc (evs : list Event) (e : Event) s :
  run (evs ++ [e]) s = handle e (run evs s).
Proof. unfold run. by rewrite foldl_snoc. Qed.

Lemma run_quiet_pending X (pm : PoseMsg) (evs : list Event) s :
  Forall (quiet X) evs →
  visuals s !! X = None → latest_visual X (visualMsgs s) = None →
  latest_pose X (poseMsgs s) = Some pm →
  visuals (run evs s) !! X = None
  ∧ latest_visual X (visualMsgs (run evs s)) = None
  ∧ latest_pose X (poseMsgs (run evs s)) = Some pm.
Proof.
  intros Hq Hv Hl Hp. induction evs as [|e evs IH] using rev_ind; [done|].
  apply Forall_app in Hq as [Hq He]. apply Forall_singleton in He as [Hqv Hqp].
  destruct (IH Hq) as (IHv & IHl & IHp). rewrite run_snoc.
  destruct e as [cb|]; simpl.
  - rewrite callback_visuals, callback_latest_visual, callback_latest_pose by done.
    done.
  - destruct (PreRender_keeps_pending X (run evs s) IHv IHl) as [-> ->].
    by rewrite visualMsgs_PreRender.
Qed.

Lemma run_quiet_staged X (vm : VisualMsg) (pm : PoseMsg) (evs : list Event) s :
  Forall (quiet X) evs → Forall (λ e, is_frame e = false) evs →
  latest_visual X (visualMsgs s) = Some vm →
  latest_pose X (poseMsgs s) = Some pm →
  latest_visual X (visualMsgs (run evs s)) = Some vm
  ∧ latest_pose X (poseMsgs (run evs s)) = Some pm.
Proof.
  intros Hq Hf Hl Hp. induction evs as [|e evs IH] using rev_ind; [done|].
  apply Forall_app in Hq as [Hq He]. apply Forall_singleton in He as [Hqv Hqp].
  apply Forall_app in Hf as [Hf Hfe]. rewrite Forall_singleton in Hfe.
  destruct (IH Hq Hf) as (IHl & IHp). rewrite run_snoc.
  destruct e as [cb|]; simpl in *; [|done].
  by rewrite callback_latest_visual, callback_latest_pose.
Qed.

(** The shared core of pose deferral: a pose for [X] that is the last one
    pending while [X] is unknown stays the last one pending through any
    events that carry nothing for [X], and the first cycle after a
    non-delete visual message for [X] applies it. *)
Lemma deferral_core X (pm : PoseMsg) (vm : VisualMsg) (evs1 evs2 : list Event) s :
  visuals s !! X = None → latest_visual X (visualMsgs s) = None →
  latest_pose X (poseMsgs s) = Some pm →
  v_str_id vm = X → is_delete vm = false →
  Forall (quiet X) evs1 →
  Forall (quiet X) evs2 → Forall (λ e, is_frame e = false) evs2 →
  (visuals (run evs1 s) !! X = None
   ∧ latest_pose X (poseMsgs (run evs1 s)) = Some pm)
  ∧ (∃ v, visuals (PreRender (run evs2 (ReceiveVisualMsg vm (run evs1 s)))) !! X
          = Some (SetPose (p_pose pm) v))
  ∧ latest_pose X
      (poseMsgs (PreRender (run evs2 (ReceiveVisualMsg vm (run evs1 s))))) = None.
Proof.
  intros Hv Hl Hp Hid Hd Hq1 Hq2 Hf2.
  destruct (run_quiet_pending X pm evs1 s Hq1 Hv Hl Hp) as (Hv1 & Hl1 & Hp1).
  split; [done|].
  apply (PreRender_resolves X vm pm); [|done|].
  - apply (run_quiet_staged X vm pm); try done.
    simpl. by rewrite latest_visual_snoc, decide_True.
  - apply (run_quiet_staged X vm pm); try done.
    simpl. by rewrite latest_visual_snoc, decide_True.
Qed.

(** ** The cycle: buffers, deletion, selection, lights *)

(** C10.  After a cycle the pending visual and light lists are empty, the
    pending selection message is reset, and the pending pose list is the
    old one restricted, in order, to the messages whose identifier is not
    in the visual registry. *)
Theorem cycle_leaves_buffers s :
  visualMsgs (PreRender s) = []
  ∧ lightMsgs (PreRender s) = []
  ∧ selectionMsg (PreRender s) = None
  ∧ poseMsgs (PreRender s)
    = filter (λ p, visuals (PreRender s) !! p_str_id p = None) (poseMsgs s).
Proof.
  split; [apply visualMsgs_PreRender|].
  split; [apply lightMsgs_PreRender|].
  split; [apply selectionMsg_PreRender|].
  apply poseMsgs_PreRender_filter.
Qed.

(** C8.  A delete message for an identifier that is not registered
    changes nothing in the scene, and a delete message processed twice
    leaves the scene that processing it once leaves. *)
Theorem delete_absent_noop (d : VisualMsg) s :
  is_delete d = true →
  (visuals s !! v_str_id d = None → ProcessVisualMsg d s = s)
  ∧ ProcessVisualMsg d (ProcessVisualMsg d s) = ProcessVisualMsg d s.
Proof.
  intros Hd.
  assert (∀ s', visuals s' !! v_str_id d = None → ProcessVisualMsg d s' = s')
    as Hnoop.
  { intros s' Hn. unfold ProcessVisualMsg. by rewrite Hd, Hn. }
  split; [apply Hnoop|].
  apply Hnoop. by apply ProcessVisualMsg_delete.
Qed.

(** C5.  When a create, an update and a delete for [A] are received in
    this order and then drained by one cycle, [A] is not in the visual
    registry after the cycle. *)
Theorem create_update_delete_absent A (c u d : VisualMsg) s :
  v_str_id c = A → v_str_id u = A → v_str_id d = A →
  is_delete c = false → is_delete u = false → is_delete d = true →
  visuals
    (PreRender (ReceiveVisualMsg d (ReceiveVisualMsg u (ReceiveVisualMsg c s))))
    !! A = None.
Proof.
  intros Hc Hu Hd Hdc Hdu Hdd.
  apply PreRender_registered. apply (visual_loop_deleted A _ d); [|done].
  simpl. by rewrite latest_visual_snoc, decide_True.
Qed.

(** C6.  A cycle with a pending selection message for an identifier that
    is not in the visual registry ends with nothing attached to the
    selection object, whatever was attached before; if the identifier is
    registered, the selection object holds that visual.  Either way the
    pending selection message is reset. *)
Theorem selection_resolves_or_clears (sel : SelectionMsg) s :
  selectionMsg s = Some sel →
  (visuals (PreRender s) !! s_str_id sel = None →
   selectionObj (PreRender s) = None)
  ∧ (is_Some (visuals (PreRender s) !! s_str_id sel) →
     selectionObj (PreRender s) = Some (s_str_id sel))
  ∧ selectionMsg (PreRender s) = None.
Proof.
  intros Hsel. rewrite selectionObj_PreRender, Hsel.
  split; [by intros ->|]. split; [by intros [v ->]|].
  apply selectionMsg_PreRender.
Qed.

(** C7, as the code has it.  A light message for an identifier that is
    already in the light registry is ignored: the scene, and with it the
    registered light, stays as it is. *)
Theorem known_light_ignored (msg : LightMsg) s :
  is_Some (lights s !! l_str_id msg) → ProcessLightMsg msg s = s.
Proof. intros [l Hl]. unfold ProcessLightMsg. by rewrite Hl. Qed.

(** ** The pending pose list *)

Lemma pending_poses_ReceivePoseMsg_same (msg : PoseMsg) s :
  pending_poses (p_str_id msg) (ReceivePoseMsg msg s)
  = S (pred (pending_poses (p_str_id msg) s)).
Proof.
  unfold pending_poses. simpl.
  rewrite filter_app, filter_erase_old_eq, length_app.
  rewrite filter_cons, decide_True by done. simpl.
  destruct (filter _ (poseMsgs s)); simpl; lia.
Qed.

Lemma pending_poses_ReceivePoseMsg_other X (msg : PoseMsg) s :
  p_str_id msg ≠ X →
  pending_poses X (ReceivePoseMsg msg s) = pending_poses X s.
Proof.
  intros Hne. unfold pending_poses. simpl.
  rewrite filter_app, filter_erase_old_ne by done.
  rewrite filter_cons, decide_False by done. simpl.
  by rewrite app_nil_r.
Qed.

(** The pose callback keeps the pending list at one message per
    identifier at most. *)
Lemma ReceivePoseMsg_at_most_one (msg : PoseMsg) s :
  (∀ X, pending_poses X s ≤ 1) →
  ∀ X, pending_poses X (ReceivePoseMsg msg s) ≤ 1.
Proof.
  intros Hs X. destruct (decide (p_str_id msg = X)) as [<-|Hne].
  - rewrite pending_poses_ReceivePoseMsg_same.
    specialize (Hs (p_str_id msg)). lia.
  - by rewrite pending_poses_ReceivePoseMsg_other.
Qed.

(** The scene callback appends its pose entries as they are. *)
Lemma pending_poses_ReceiveSceneMsg X (msg : SceneMsg) s :
  pending_poses X (ReceiveSceneMsg msg s)
  = pending_poses X s + length (filter (λ p, p_str_id p = X) (scene_pose msg)).
Proof.
  unfold pending_poses.
  rewrite (proj1 (proj2 (ReceiveSceneMsg_fields msg s))).
  by rewrite filter_app, length_app.
Qed.

(** ** Poses and the visuals they are for *)

Section PoseFacts.
Context {readback : PoseReadback}.

Lemma applied_pose_read (o : option Visual) (pm : PoseMsg) :
  (∃ v, o = Some (SetPose (p_pose pm) v)) →
  ∃ e, o = Some e ∧ (∃ v, e = SetPose (p_pose pm) v) ∧ GetPose e = p_pose pm.
Proof.
  intros [v ->]. exists (SetPose (p_pose pm) v).
  split; [done|]. split; [eauto|]. apply GetPose_SetPose.
Qed.


(** C3.  Two pose messages for an unregistered [X] are received one after
    the other.  The second is then the last pending pose for [X], and it
    has replaced the first when at most one pose for [X] was pending
    before.  When [X] later gets registered as in C1, the pose that its
    visual ends up with is the one of the second message. *)
Theorem latest_staged_pose_wins X (p1 p2 : PoseMsg) (vm : VisualMsg)
    (evs1 evs2 : list Event) s :
  p_str_id p1 = X → p_str_id p2 = X →
  v_str_id vm = X → is_delete vm = false →
  visuals s !! X = None → latest_visual X (visualMsgs s) = None →
  Forall (quiet X) evs1 →
  Forall (quiet X) evs2 → Forall (λ e, is_frame e = false) evs2 →
  let s0 := ReceivePoseMsg p2 (ReceivePoseMsg p1 s) in
  let s2 := PreRender (run evs2 (ReceiveVisualMsg vm (run evs1 s0))) in
  latest_pose X (poseMsgs s0) = Some p2
  ∧ (pending_poses X s ≤ 1 → pending_poses X s0 = 1)
  ∧ (∃ e, visuals s2 !! X = Some e
          ∧ (∃ v, e = SetPose (p_pose p2) v) ∧ GetPose e = p_pose p2)
  ∧ latest_pose X (poseMsgs s2) = None.
Proof.
  intros Hp1 Hp2 Hv Hd Hreg Hl Hq1 Hq2 Hf2. simpl.
  assert (latest_pose X (poseMsgs (ReceivePoseMsg p2 (ReceivePoseMsg p1 s)))
          = Some p2) as Hlast.
  { simpl. by rewrite latest_pose_snoc, decide_True. }
  split; [done|]. split.
  { intros Hone. rewrite <- Hp2, pending_poses_ReceivePoseMsg_same.
    rewrite Hp2, <- Hp1, pending_poses_ReceivePoseMsg_same.
    rewrite Hp1. simpl. lia. }
  destruct (deferral_core X p2 vm evs1 evs2
              (ReceivePoseMsg p2 (ReceivePoseMsg p1 s)))
    as (_ & Happly & Hgone); try done.
  split; [|done]. by apply applied_pose_read.
Qed.

End PoseFacts.

End SceneFacts.

(** * The render thread and the transport threads *)

Section ThreadFacts.
Context `{Entities}.
Implicit Types (s : Scene) (c : Config) (P : list ProducerPc).

Lemma schedule_app (ts1 ts2 : list Thread) c :
  schedule (ts1 ++ ts2) c
  = match schedule ts1 c with
    | Some c' => schedule ts2 c'
    | None => None
    end.
Proof.
  revert c. induction ts1 as [|t ts1 IH]; intros c; simpl; [done|].
  destruct (thread_step t c); [apply IH | done].
Qed.

(** ** The render thread alone computes [PreRender] *)

Lemma consumer_trace_add (a b : nat) c :
  consumer_trace (a + b) c
  = consumer_trace a c
    ++ match schedule (replicate a Consumer) c with
       | Some c' => consumer_trace b c'
       | None => []
       end.
Proof.
  revert c. induction a as [|a IH]; intros c; simpl; [done|].
  destruct (consumer_step c) as [c1|]; [|done].
  by rewrite IH, app_assoc.
Qed.

Lemma consumer_visual_loop (l1 l2 : list VisualMsg) s mu P :
  visualMsgs s = l1 ++ l2 →
  ∃ n, schedule (replicate n Consumer) (mkConfig s mu (CVisual (length l1)) P)
       = Some (mkConfig
                 (set_visualMsgs [] (foldl (λ acc m, ProcessVisualMsg m acc) s l2))
                 mu (CLight 0) P)
       ∧ consumer_trace n (mkConfig s mu (CVisual (length l1)) P)
         = ApVisual <$> l2.
Proof.
  revert l1 s. induction l2 as [|m l2 IH]; intros l1 s Hl.
  - exists 1. simpl. unfold consumer_step, step_applies. simpl.
    rewrite Hl, app_nil_r, (lookup_ge_None_2 l1 (length l1)) by lia. done.
  - destruct (IH (l1 ++ [m]) (ProcessVisualMsg m s)) as (n & Hn & Tn).
    { rewrite ProcessVisualMsg_frame. simpl. by rewrite Hl, <- app_assoc. }
    rewrite length_app, Nat.add_1_r in Hn, Tn.
    exists (S n). cbn [replicate schedule thread_step consumer_trace].
    unfold consumer_step at 1 2, step_applies. cbn.
    rewrite Hl, list_lookup_middle by done. csimpl. by rewrite Tn.
Qed.

Lemma consumer_light_loop (l1 l2 : list LightMsg) s mu P :
  lightMsgs s = l1 ++ l2 →
  ∃ n, schedule (replicate n Consumer) (mkConfig s mu (CLight (length l1)) P)
       = Some (mkConfig
                 (set_lightMsgs [] (foldl (λ acc m, ProcessLightMsg m acc) s l2))
                 mu (CPose 0) P)
       ∧ consumer_trace n (mkConfig s mu (CLight (length l1)) P)
         = ApLight <$> l2.
Proof.
  revert l1 s. induction l2 as [|m l2 IH]; intros l1 s Hl.
  - exists 1. simpl. unfold consumer_step, step_applies. simpl.
    rewrite Hl, app_nil_r, (lookup_ge_None_2 l1 (length l1)) by lia. done.
  - destruct (IH (l1 ++ [m]) (ProcessLightMsg m s)) as (n & Hn & Tn).
    { rewrite ProcessLightMsg_frame. simpl. by rewrite Hl, <- app_assoc. }
    rewrite length_app, Nat.add_1_r in Hn, Tn.
    exists (S n). cbn [replicate schedule thread_step consumer_trace].
    unfold consumer_step at 1 2, step_applies. cbn.
    rewrite Hl, list_lookup_middle by done. csimpl. by rewrite Tn.
Qed.

Lemma consumer_pose_loop (kept rest : list PoseMsg) s mu P :
  poseMsgs s = kept ++ rest →
  ∃ n, schedule (replicate n Consumer) (mkConfig s mu (CPose (length kept)) P)
       = Some (mkConfig
                 (set_visuals (pose_loop rest (visuals s)).2
                    (set_poseMsgs (kept ++ (pose_loop rest (visuals s)).1) s))
                 mu CSelect P)
       ∧ consumer_trace n (mkConfig s mu (CPose (length kept)) P)
         = ApPose <$> filter (λ p, is_Some (visuals s !! p_str_id p)) rest.
Proof.
  revert kept s. induction rest as [|p rest IH]; intros kept s Hl.
  - exists 1. simpl. unfold consumer_step, step_applies. simpl.
    rewrite Hl, app_nil_r, (lookup_ge_None_2 kept (length kept)) by lia.
    split; [|done].
    do 2 f_equal. destruct s; simpl in *. by rewrite app_nil_r in Hl; subst.
  - rewrite filter_cons. simpl.
    destruct (visuals s !! p_str_id p) as [v|] eqn:Ev.
    + destruct (IH kept
        (set_poseMsgs (kept ++ rest)
           (set_visuals (<[p_str_id p := SetPose (p_pose p) v]> (visuals s)) s)))
        as (n & Hn & Tn); [done|].
      exists (S n). cbn [replicate schedule thread_step consumer_trace].
      unfold consumer_step at 1 2, step_applies. cbn.
      rewrite Hl, list_lookup_middle, Ev by done. cbn.
      replace (delete (length kept) (kept ++ p :: rest)) with (kept ++ rest).
      * split; [apply Hn|]. rewrite decide_True by eauto. csimpl.
        rewrite Tn. do 2 f_equal. simpl. apply list_filter_iff. intros q.
        destruct (decide (p_str_id p = p_str_id q)) as [Heq|Hne].
        -- rewrite <- Heq, lookup_insert_eq, Ev. split; eauto.
        -- by rewrite lookup_insert_ne.
      * clear. induction kept as [|k kept IHk]; simpl; [done|]. by f_equal.
    + destruct (IH (kept ++ [p]) s) as (n & Hn & Tn).
      { by rewrite Hl, <- app_assoc. }
      rewrite length_app, Nat.add_1_r, <- app_assoc in Hn.
      rewrite length_app, Nat.add_1_r in Tn.
      exists (S n). cbn [replicate schedule thread_step consumer_trace].
      unfold consumer_step at 1 2, step_applies. cbn.
      rewrite Hl, list_lookup_middle, Ev by done. cbn.
      split; [done|]. rewrite decide_False by (by intros [? ?]). done.
Qed.

Lemma consumer_select_block s mu P :
  ∃ n, schedule (replicate n Consumer) (mkConfig s mu CSelect P)
       = Some (mkConfig (select_pending s) None CReturned P)
       ∧ consumer_trace n (mkConfig s mu CSelect P)
         = match selectionMsg s with
           | Some sel =>
               [ApSelection (match visuals s !! s_str_id sel with
                             | Some _ => Some (s_str_id sel)
                             | None => None
                             end)]
           | None => []
           end.
Proof.
  unfold select_pending. destruct (selectionMsg s) as [sel|] eqn:Esel.
  - exists 5. split.
    + cbn [replicate schedule thread_step].
      unfold consumer_step at 1. cbn. rewrite Esel.
      unfold consumer_step at 1. cbn. rewrite Esel.
      unfold consumer_step. cbn. by destruct (visuals s !! s_str_id sel).
    + cbn [consumer_trace]. unfold step_applies.
      unfold consumer_step at 1. cbn. rewrite Esel.
      unfold consumer_step at 1. cbn. rewrite Esel.
      unfold consumer_step. cbn. done.
  - exists 2. split.
    + cbn [replicate schedule thread_step].
      unfold consumer_step at 1. cbn. by rewrite Esel.
    + cbn [consumer_trace]. unfold step_applies.
      unfold consumer_step at 1. cbn. by rewrite Esel.
Qed.

(** Left alone, the render thread takes the mutex, runs through its three
    loops and the selection block, releases the mutex, and has turned the
    scene into [PreRender s]. *)
Lemma consumer_runs_PreRender_trace s P :
  ∃ n, schedule (replicate n Consumer) (mkConfig s None CEnter P)
       = Some (mkConfig (PreRender s) None CReturned P)
       ∧ consumer_trace n (mkConfig s None CEnter P)
         = (ApVisual <$> visualMsgs s)
           ++ (ApLight <$> lightMsgs s)
           ++ (ApPose <$> filter (λ p, is_Some (visuals (PreRender s) !! p_str_id p))
                            (poseMsgs s))
           ++ match selectionMsg s with
              | Some _ => [ApSelection (selectionObj (PreRender s))]
              | None => []
              end.
Proof.
  destruct (consumer_visual_loop [] (visualMsgs s) s (Some Consumer) P)
    as (n1 & H1 & T1); [done|].
  set (s2 := set_visualMsgs [] (foldl (λ acc m, ProcessVisualMsg m acc) s (visualMsgs s))) in *.
  destruct (consumer_light_loop [] (lightMsgs s2) s2 (Some Consumer) P)
    as (n2 & H2 & T2); [done|].
  set (s4 := set_lightMsgs [] (foldl (λ acc m, ProcessLightMsg m acc) s2 (lightMsgs s2))) in *.
  destruct (consumer_pose_loop [] (poseMsgs s4) s4 (Some Consumer) P)
    as (n3 & H3 & T3); [done|].
  set (r := pose_loop (poseMsgs s4) (visuals s4)) in *.
  set (s5 := set_visuals r.2 (set_poseMsgs r.1 s4)) in *.
  cbn [length] in H1, H2, H3, T1, T2, T3.
  destruct (consumer_select_block s5 (Some Consumer) P) as (n4 & H4 & T4).
  assert (lightMsgs s2 = lightMsgs s) as El.
  { unfold s2. by rewrite (visual_loop_frame (visualMsgs s) s). }
  assert (poseMsgs s4 = poseMsgs s) as Ep.
  { unfold s4. rewrite light_loop_frame. simpl. unfold s2. simpl.
    by rewrite (visual_loop_frame (visualMsgs s) s). }
  assert (visuals s4
          = visuals (foldl (λ acc m, ProcessVisualMsg m acc) s (visualMsgs s)))
    as Ev.
  { unfold s4. rewrite light_loop_frame. done. }
  assert (selectionMsg s5 = selectionMsg s) as Es.
  { unfold s5, s4. simpl. rewrite light_loop_frame. simpl. unfold s2. simpl.
    by rewrite (visual_loop_frame (visualMsgs s) s). }
  assert (visuals s5 = visuals (PreRender s)) as Ev5.
  { rewrite visuals_PreRender. transitivity r.2; [done|].
    unfold r. by rewrite Ep, Ev. }
  exists (1 + (n1 + (n2 + (n3 + n4)))). split.
  - cbn [Nat.add replicate schedule thread_step]. unfold consumer_step at 1.
    cbn [consumer receiveMutex scene producers].
    rewrite replicate_add, schedule_app, H1.
    rewrite replicate_add, schedule_app, H2.
    rewrite replicate_add, schedule_app, H3. exact H4.
  - cbn [Nat.add consumer_trace]. unfold consumer_step at 1, step_applies at 1.
    cbn [consumer receiveMutex scene producers option_list option_rect app].
    rewrite consumer_trace_add, T1, H1.
    rewrite consumer_trace_add, T2, H2, El.
    rewrite consumer_trace_add, T3, H3.
    change (consumer_trace n4 _)
      with (consumer_trace n4 (mkConfig s5 (Some Consumer) CSelect P)).
    rewrite T4, Ep, Es.
    do 2 f_equal. f_equal.
    + f_equal. apply list_filter_iff. intros p.
      rewrite <- Ev5. change (visuals s5) with r.2. unfold r.
      rewrite <- !not_eq_None_Some, pose_loop_registered. done.
    + destruct (selectionMsg s) as [sel|] eqn:Esel; [|done].
      by rewrite selectionObj_PreRender, Esel, Ev5.
Qed.

Lemma consumer_runs_PreRender s P :
  ∃ n, schedule (replicate n Consumer) (mkConfig s None CEnter P)
       = Some (mkConfig (PreRender s) None CReturned P).
Proof.
  destruct (consumer_runs_PreRender_trace s P) as (n & Hn & _). eauto.
Qed.

(** ** Who holds the mutex *)

Lemma thread_step_mutex (t : Thread) c c' :
  thread_step t c = Some c' →
  (in_cycle (consumer c) = true → receiveMutex c = Some Consumer) →
  (∀ i pc, producers c !! i = Some pc → in_callback pc = true →
           receiveMutex c = Some (Producer i)) →
  (in_cycle (consumer c') = true → receiveMutex c' = Some Consumer)
  ∧ (∀ i pc, producers c' !! i = Some pc → in_callback pc = true →
             receiveMutex c' = Some (Producer i)).
Proof.
  intros Hstep Hc Hp. destruct t as [|j]; simpl in Hstep.
  - unfold consumer_step in Hstep.
    destruct (consumer c) eqn:Epc; simpl in *.
    + destruct (receiveMutex c) eqn:Em; [done|].
      injection Hstep as <-. simpl. split; [done|].
      intros i pc Hi Hin. specialize (Hp i pc Hi Hin). done.
    + destruct (visualMsgs (scene c) !! i); injection Hstep as <-; simpl; auto.
    + destruct (lightMsgs (scene c) !! i); injection Hstep as <-; simpl; auto.
    + destruct (poseMsgs (scene c) !! i) as [p|]; [|injection Hstep as <-; simpl; auto].
      destruct (visuals (scene c) !! p_str_id p); injection Hstep as <-; simpl; auto.
    + destruct (selectionMsg (scene c)); injection Hstep as <-; simpl; auto.
    + destruct (selectionMsg (scene c)); [|done].
      injection Hstep as <-; simpl; auto.
    + injection Hstep as <-; simpl; auto.
    + injection Hstep as <-; simpl; auto.
    + injection Hstep as <-. simpl. split; [done|].
      intros i pc Hi Hin. specialize (Hp i pc Hi Hin).
      rewrite Hc in Hp by done. done.
    + done.
  - unfold producer_step in Hstep.
    destruct (producers c !! j) as [[cb|cb| |]|] eqn:Ej; try done.
    + destruct (takes_lock cb).
      * destruct (receiveMutex c) eqn:Em; [done|].
        injection Hstep as <-. simpl. split.
        { intros Hin. by specialize (Hc Hin). }
        intros i pc Hi Hin. destruct (decide (i = j)) as [->|Hne]; [done|].
        rewrite list_lookup_insert_ne in Hi by done.
        specialize (Hp i pc Hi Hin). done.
      * injection Hstep as <-. simpl. split; [done|].
        intros i pc Hi Hin. destruct (decide (i = j)) as [->|Hne].
        { rewrite list_lookup_insert_eq in Hi by (by eapply lookup_lt_Some).
          by injection Hi as <-. }
        rewrite list_lookup_insert_ne in Hi by done. eauto.
    + injection Hstep as <-. simpl. split; [done|].
      intros i pc Hi Hin. destruct (decide (i = j)) as [->|Hne]; [eauto|].
      rewrite list_lookup_insert_ne in Hi by done. eauto.
    + injection Hstep as <-. simpl.
      pose proof (Hp j Leaving Ej eq_refl) as Hj. split.
      { intros Hin. rewrite Hc in Hj by done. done. }
      intros i pc Hi Hin. destruct (decide (i = j)) as [->|Hne].
      { rewrite list_lookup_insert_eq in Hi by (by eapply lookup_lt_Some).
        by injection Hi as <-. }
      rewrite list_lookup_insert_ne in Hi by done.
      specialize (Hp i pc Hi Hin). congruence.
Qed.

Lemma schedule_mutex (ts : list Thread) c c' :
  schedule ts c = Some c' →
  (in_cycle (consumer c) = true → receiveMutex c = Some Consumer) →
  (∀ i pc, producers c !! i = Some pc → in_callback pc = true →
           receiveMutex c = Some (Producer i)) →
  (in_cycle (consumer c') = true → receiveMutex c' = Some Consumer)
  ∧ (∀ i pc, producers c' !! i = Some pc → in_callback pc = true →
             receiveMutex c' = Some (Producer i)).
Proof.
  revert c. induction ts as [|t ts IH]; intros c; simpl.
  - by intros [= ->].
  - destruct (thread_step t c) as [c1|] eqn:Et; [|done].
    intros Hs Hc Hp. destruct (thread_step_mutex t c c1 Et Hc Hp).
    by apply (IH c1).
Qed.

Lemma applying_in_cycle (pc : ConsumerPc) :
  applying pc = true → in_cycle pc = true.
Proof. by destruct pc. Qed.

(** The selection callback has no [scoped_lock]: it can always run, also
    in the middle of a cycle. *)
Lemma selection_callback_not_blocked c (i : nat) (m : SelectionMsg) :
  producers c !! i = Some (Entering (OnSelection m)) →
  thread_step (Producer i) c
  = Some (mkConfig (OnSelectionMsg m (scene c)) (receiveMutex c) (consumer c)
                   (<[i := Returned]> (producers c))).
Proof. intros Hi. simpl. unfold producer_step. by rewrite Hi. Qed.

(** C9, as the code has it.  [PreRender] holds the receive mutex from its
    first statement to its return.  In every state that the threads can
    reach, while the render thread is inside [PreRender] (applying
    messages included) the mutex is its own, and a transport thread that
    is about to enter a callback with a [scoped_lock] cannot move. *)
Theorem cycle_holds_receive_mutex s (cbs : list Callback) (ts : list Thread)
    c (i : nat) (cb : Callback) :
  schedule ts (start s cbs) = Some c →
  in_cycle (consumer c) = true →
  producers c !! i = Some (Entering cb) → takes_lock cb = true →
  receiveMutex c = Some Consumer ∧ thread_step (Producer i) c = None.
Proof.
  intros Hs Hin Hi Hlock.
  destruct (schedule_mutex ts (start s cbs) c Hs) as [Hc _].
  - done.
  - simpl. intros j pc Hj. apply list_lookup_fmap_Some in Hj as (cb' & -> & _).
    done.
  - split; [auto|]. simpl. unfold producer_step.
    by rewrite Hi, Hlock, Hc.
Qed.

End ThreadFacts.

(** * The small instance at work *)

(** The spec's first scenario: a visual and a pose for "v1" are drained by
    the same cycle. *)
Example scenario_same_cycle :
  let s := PreRender (ReceivePoseMsg (toy_pose "v1" 7)
                        (ReceiveVisualMsg (toy_visual "v1" 3) toy_empty)) in
  visuals s !! "v1" = Some (mkToyVisual "v1" None 7 [3]) ∧ poseMsgs s = [].
Proof. by vm_compute. Qed.

(** Its second half: the next cycle drains a pose and then a delete for
    "v1"; the visual is gone and the pose stays pending. *)
Example scenario_pose_then_delete :
  let s1 := PreRender (ReceivePoseMsg (toy_pose "v1" 7)
                         (ReceiveVisualMsg (toy_visual "v1" 3) toy_empty)) in
  let s2 := PreRender (ReceiveVisualMsg (toy_delete "v1")
                         (ReceivePoseMsg (toy_pose "v1" 8) s1)) in
  visuals s2 !! "v1" = None ∧ poseMsgs s2 = [toy_pose "v1" 8].
Proof. by vm_compute. Qed.

(** The spec's second scenario: the pose for "v2" comes a cycle before the
    visual. *)
Example scenario_pose_first :
  let s1 := PreRender (ReceivePoseMsg (toy_pose "v2" 7) toy_empty) in
  let s2 := PreRender (ReceiveVisualMsg (toy_visual "v2" 3) s1) in
  visuals s1 !! "v2" = None ∧ poseMsgs s1 = [toy_pose "v2" 7]
  ∧ visuals s2 !! "v2" = Some (mkToyVisual "v2" None 7 [3]) ∧ poseMsgs s2 = [].
Proof. by vm_compute. Qed.



Lemma latest_staged_pose_wins_witness :
  let s0 := ReceivePoseMsg (toy_pose "v2" 8)
              (ReceivePoseMsg (toy_pose "v2" 7) toy_empty) in
  let s2 := PreRender (run [] (ReceiveVisualMsg (toy_visual "v2" 3)
                                 (run [Frame] s0))) in
  latest_pose "v2" (poseMsgs s0) = Some (toy_pose "v2" 8)
  ∧ (pending_poses "v2" toy_empty ≤ 1 → pending_poses "v2" s0 = 1)
  ∧ (∃ e, visuals s2 !! "v2" = Some e
          ∧ (∃ v, e = SetPose (p_pose (toy_pose "v2" 8)) v)
          ∧ GetPose e = p_pose (toy_pose "v2" 8))
  ∧ latest_pose "v2" (poseMsgs s2) = None.
Proof.
  apply (latest_staged_pose_wins "v2" (toy_pose "v2" 7) (toy_pose "v2" 8)
           (toy_visual "v2" 3) [Frame] [] toy_empty);
    try reflexivity;
    apply (bool_decide_unpack _); vm_compute; exact I.
Defined.

Lemma create_update_delete_absent_witness :
  visuals
    (PreRender (ReceiveVisualMsg (toy_delete "A")
                  (ReceiveVisualMsg (toy_visual "A" 2)
                     (ReceiveVisualMsg (toy_visual "A" 1) toy_empty))))
    !! "A" = None.
Proof.
  apply (create_update_delete_absent "A" (toy_visual "A" 1) (toy_visual "A" 2)
           (toy_delete "A") toy_empty); reflexivity.
Defined.

Lemma delete_absent_noop_witness :
  (visuals toy_empty !! v_str_id (toy_delete "A") = None →
   ProcessVisualMsg (toy_delete "A") toy_empty = toy_empty)
  ∧ ProcessVisualMsg (toy_delete "A") (ProcessVisualMsg (toy_delete "A") toy_empty)
    = ProcessVisualMsg (toy_delete "A") toy_empty.
Proof. apply (delete_absent_noop (toy_delete "A") toy_empty). reflexivity. Defined.

Lemma selection_resolves_or_clears_witness :
  let s := OnSelectionMsg (toy_select "ghost")
             (Attach (Some "v1")
                (PreRender (ReceiveVisualMsg (toy_visual "v1" 3) toy_empty))) in
  (visuals (PreRender s) !! s_str_id (toy_select "ghost") = None →
   selectionObj (PreRender s) = None)
  ∧ (is_Some (visuals (PreRender s) !! s_str_id (toy_select "ghost")) →
     selectionObj (PreRender s) = Some (s_str_id (toy_select "ghost")))
  ∧ selectionMsg (PreRender s) = None.
Proof.
  apply (selection_resolves_or_clears (toy_select "ghost")). reflexivity.
Defined.

(** A selection of an unknown "ghost" clears the selection of "v1". *)
Example stale_selection_cleared :
  let s := OnSelectionMsg (toy_select "ghost")
             (Attach (Some "v1")
                (PreRender (ReceiveVisualMsg (toy_visual "v1" 3) toy_empty))) in
  selectionObj s = Some "v1" ∧ selectionObj (PreRender s) = None.
Proof. by vm_compute. Qed.

(** C7 as the spec words it fails: the light "sun" is registered with
    body 1, and a second message for "sun" with body 2 leaves it at 1,
    where a merge puts 2. *)
Lemma known_light_not_merged :
  let s0 := ProcessLightMsg (toy_light "sun" 1) toy_empty in
  is_Some (lights s0 !! "sun")
  ∧ lights (ProcessLightMsg (toy_light "sun" 2) s0) !! "sun" = Some 1
  ∧ lights (upsertLight (toy_light "sun" 2) s0) !! "sun" = Some 2
  ∧ ProcessLightMsg (toy_light "sun" 2) s0 ≠ upsertLight (toy_light "sun" 2) s0.
Proof.
  simpl. split; [by eexists|]. split; [reflexivity|]. split; [reflexivity|].
  intros Heq. apply (f_equal (λ s, lights s !! "sun")) in Heq.
  vm_compute in Heq. discriminate Heq.
Qed.

Lemma known_light_ignored_witness :
  ProcessLightMsg (toy_light "sun" 2) (ProcessLightMsg (toy_light "sun" 1) toy_empty)
  = ProcessLightMsg (toy_light "sun" 1) toy_empty.
Proof.
  apply (known_light_ignored (toy_light "sun" 2)). by eexists.
Defined.

(** C4 fails on the scene callback: with a pose for "box" pending, a scene
    message that carries a pose for "box" leaves two of them pending. *)
Theorem scene_pose_entries_pile_up :
  let s := ReceiveSceneMsg
             {| scene_visual := []; scene_pose := [toy_pose "box" 2];
                scene_light := []; scene_ambient := None |}
             (ReceivePoseMsg (toy_pose "box" 1) toy_empty) in
  poseMsgs s = [toy_pose "box" 1; toy_pose "box" 2]
  ∧ pending_poses "box" s = 2.
Proof. by vm_compute. Qed.

(** C9 as the spec words it fails: one visual message is pending, the
    render thread has taken its first step into [PreRender] and is in the
    visual loop, and the transport thread that wants to deliver another
    visual message finds the mutex taken and cannot move. *)
Lemma producer_blocked_while_applying :
  ¬ (∀ (ts : list Thread) (c : Config) (i : nat) (cb : Callback),
       schedule ts (start (ReceiveVisualMsg (toy_visual "v1" 1) toy_empty)
                          [OnVisual (toy_visual "v2" 2)]) = Some c →
       applying (consumer c) = true →
       producers c !! i = Some (Entering cb) →
       receiveMutex c ≠ Some Consumer ∧ is_Some (thread_step (Producer i) c)).
Proof.
  intros Hclaim.
  destruct (Hclaim [Consumer] _ 0 (OnVisual (toy_visual "v2" 2)) eq_refl eq_refl eq_refl)
    as [Hfree _].
  by apply Hfree.
Qed.

Lemma cycle_holds_receive_mutex_witness :
  ∃ c, schedule [Consumer; Consumer]
         (start (ReceiveVisualMsg (toy_visual "v1" 1) toy_empty)
                [OnVisual (toy_visual "v2" 2)]) = Some c
       ∧ receiveMutex c = Some Consumer
       ∧ thread_step (Producer 0) c = None.
Proof.
  eexists. split; [reflexivity|].
  apply (cycle_holds_receive_mutex
           (ReceiveVisualMsg (toy_visual "v1" 1) toy_empty)
           [OnVisual (toy_visual "v2" 2)] [Consumer; Consumer] _ 0
           (OnVisual (toy_visual "v2" 2))); reflexivity.
Defined.

(** * More on the cycle and the callbacks *)

Section CycleFacts.
Context `{Entities}.
Implicit Types (s : Scene) (X : string).

Lemma PreRender_is_registered X s :
  is_Some (visuals (PreRender s) !! X)
  ↔ match latest_visual X (visualMsgs s) with
    | Some m => is_delete m = false
    | None => is_Some (visuals s !! X)
    end.
Proof.
  rewrite <- !not_eq_None_Some, PreRender_registered.
  destruct (latest_visual X (visualMsgs s)) as [m|] eqn:El.
  - destruct (is_delete m) eqn:Ed.
    + rewrite (visual_loop_deleted X _ m s El Ed). naive_solver.
    + pose proof (visual_loop_registered X _ m s El Ed) as Hreg.
      apply not_eq_None_Some in Hreg. naive_solver.
  - rewrite visual_loop_untouched by done. apply not_eq_None_Some.
Qed.

(** X1.  Whether [X] is registered after a cycle is decided by the last
    pending visual message for [X]: registered when it is not a delete,
    unregistered when it is one, and as before the cycle when there is no
    message for [X]. *)
Theorem registered_after_cycle X s :
  is_Some (visuals (PreRender s) !! X)
  ↔ match latest_visual X (visualMsgs s) with
    | Some m => is_delete m = false
    | None => is_Some (visuals s !! X)
    end.
Proof. apply PreRender_is_registered. Qed.

(** X2.  A cycle leaves alone every visual that has neither a pending
    visual message nor a pending pose. *)
Theorem cycle_leaves_other_visuals X s :
  latest_visual X (visualMsgs s) = None →
  latest_pose X (poseMsgs s) = None →
  visuals (PreRender s) !! X = visuals s !! X.
Proof.
  intros Hv Hp. rewrite visuals_PreRender.
  rewrite pose_loop_untouched by done. by apply visual_loop_untouched.
Qed.

Lemma pose_loop_all_pending (l : list PoseMsg) (vis : gmap string Visual) :
  Forall (λ p, vis !! p_str_id p = None) l → pose_loop l vis = (l, vis).
Proof.
  induction 1 as [|p l Hp _ IH]; simpl; [done|]. by rewrite Hp, IH.
Qed.

(** X3.  A second cycle with nothing new received changes nothing. *)
Theorem PreRender_idempotent s : PreRender (PreRender s) = PreRender s.
Proof.
  rewrite (PreRender_unfold (PreRender s)).
  rewrite visualMsgs_PreRender, lightMsgs_PreRender, selectionMsg_PreRender.
  simpl. rewrite pose_loop_all_pending.
  - unfold select_pending. simpl.
    rewrite <- (visualMsgs_PreRender s) at 1.
    rewrite <- (lightMsgs_PreRender s) at 1.
    rewrite <- (selectionMsg_PreRender s) at 1.
    by destruct (PreRender s).
  - rewrite poseMsgs_PreRender_filter. apply Forall_forall.
    by intros p [Hp _]%list_elem_of_filter.
Qed.

(** ** Lights *)

Lemma ProcessLightMsg_lookup (m : LightMsg) s X :
  lights (ProcessLightMsg m s) !! X
  = match lights s !! X with
    | Some l => Some l
    | None => if decide (l_str_id m = X)
              then Some (Light_LoadFromMsg m Light_new) else None
    end.
Proof.
  unfold ProcessLightMsg.
  destruct (lights s !! l_str_id m) as [l|] eqn:El; simpl.
  - destruct (lights s !! X) eqn:EX; [done|]. case_decide; congruence.
  - destruct (decide (l_str_id m = X)) as [<-|Hne].
    + by rewrite lookup_insert_eq, El.
    + rewrite lookup_insert_ne by done. by destruct (lights s !! X).
Qed.

Lemma light_loop_lookup (l : list LightMsg) s X :
  lights (foldl (λ acc m, ProcessLightMsg m acc) s l) !! X
  = match lights s !! X with
    | Some v => Some v
    | None => (λ m, Light_LoadFromMsg m Light_new) <$> first_light X l
    end.
Proof.
  revert s. induction l as [|m l IH]; intros s; simpl.
  - by destruct (lights s !! X).
  - rewrite IH, ProcessLightMsg_lookup. unfold first_light.
    rewrite filter_cons.
    destruct (lights s !! X); [done|]. by case_decide.
Qed.

Lemma lights_PreRender s :
  lights (PreRender s)
  = lights (foldl (λ acc m, ProcessLightMsg m acc) s (lightMsgs s)).
Proof.
  rewrite PreRender_unfold.
  by rewrite (proj1 (proj2 (proj2 (proj2 (proj2 (select_pending_frame _)))))).
Qed.

(** X4.  The light that a cycle leaves under [X]: the one registered
    before, if any; otherwise the one loaded from the first pending light
    message for [X]; later messages for [X] have no effect. *)
Theorem first_light_message_wins X s :
  lights (PreRender s) !! X
  = match lights s !! X with
    | Some l => Some l
    | None =>
        (λ m, Light_LoadFromMsg m Light_new) <$> first_light X (lightMsgs s)
    end.
Proof. rewrite lights_PreRender. apply light_loop_lookup. Qed.

Lemma callback_lights (cb : Callback) s :
  lights (callback_body cb s) = lights s.
Proof. destruct cb; try done. apply ReceiveSceneMsg_fields. Qed.

Lemma callback_selectionObj (cb : Callback) s :
  selectionObj (callback_body cb s) = selectionObj s.
Proof. destruct cb; try done. apply ReceiveSceneMsg_fields. Qed.

(** X5.  Nothing removes or changes a registered light: through any
    sequence of callbacks and cycles it stays registered as it is. *)
Theorem registered_light_is_final (evs : list Event) s X (l : Light) :
  lights s !! X = Some l → lights (run evs s) !! X = Some l.
Proof.
  intros Hl. induction evs as [|e evs IH] using rev_ind; [done|].
  rewrite run_snoc. destruct e as [cb|]; simpl.
  - by rewrite callback_lights.
  - rewrite lights_PreRender, light_loop_lookup. by rewrite IH.
Qed.

(** ** Parents *)

Lemma visual_loop_snoc2 (l : list VisualMsg) (a b : VisualMsg) s :
  foldl (λ acc m, ProcessVisualMsg m acc) s (l ++ [a; b])
  = ProcessVisualMsg b
      (ProcessVisualMsg a (foldl (λ acc m, ProcessVisualMsg m acc) s l)).
Proof. by rewrite foldl_app. Qed.

Lemma ProcessVisualMsg_create (m : VisualMsg) s :
  is_delete m = false → visuals s !! v_str_id m = None →
  visuals (ProcessVisualMsg m s) !! v_str_id m
  = Some (LoadFromMsg m
            (Visual_new (v_str_id m)
               (match v_parent_id m with
                | Some pid =>
                    match visuals s !! pid with
                    | Some _ => Some pid
                    | None => None
                    end
                | None => None
                end))).
Proof.
  intros Hd Hn. unfold ProcessVisualMsg. rewrite Hd, Hn. simpl.
  by rewrite lookup_insert_eq.
Qed.

(** X6.  The parent of a new visual is looked up when its message is
    processed, and only then.  With parent [p] and child [c] both new: if
    the message for [p] is received before the one for [c], the cycle
    constructs [c] with parent [p]; if it is received after, the cycle
    constructs [c] with the scene as its parent, although [p] is
    registered by the end of the same cycle. *)
Theorem parent_must_come_first (c p : string) (mc mp : VisualMsg) s :
  c ≠ p →
  v_str_id mc = c → v_parent_id mc = Some p → is_delete mc = false →
  v_str_id mp = p → is_delete mp = false →
  visuals s !! c = None → visuals s !! p = None →
  latest_visual c (visualMsgs s) = None →
  latest_visual p (visualMsgs s) = None →
  latest_pose c (poseMsgs s) = None →
  visuals (PreRender (ReceiveVisualMsg mc (ReceiveVisualMsg mp s))) !! c
  = Some (LoadFromMsg mc (Visual_new c (Some p)))
  ∧ visuals (PreRender (ReceiveVisualMsg mp (ReceiveVisualMsg mc s))) !! c
    = Some (LoadFromMsg mc (Visual_new c None))
  ∧ is_Some (visuals (PreRender (ReceiveVisualMsg mp (ReceiveVisualMsg mc s))) !! p).
Proof.
  intros Hne Hc Hpar Hdc Hp Hdp Hnc Hnp Hlc Hlp Hpose.
  assert (∀ s', visuals s' = visuals s →
            visuals (foldl (λ acc m, ProcessVisualMsg m acc) s' (visualMsgs s)) !! c = None
            ∧ visuals (foldl (λ acc m, ProcessVisualMsg m acc) s' (visualMsgs s)) !! p = None)
    as Hbefore.
  { intros s' Hs'. rewrite !visual_loop_untouched by done. by rewrite Hs'. }
  split; [|split].
  - rewrite visuals_PreRender. simpl. rewrite pose_loop_untouched by done.
    rewrite <- app_assoc. simpl. rewrite visual_loop_snoc2.
    destruct (Hbefore (ReceiveVisualMsg mc (ReceiveVisualMsg mp s)) eq_refl)
      as [Hc0 Hp0].
    set (s0 := foldl _ _ (visualMsgs s)) in *.
    rewrite <- Hc. rewrite ProcessVisualMsg_create; [|done|].
    + rewrite Hpar, <- Hp.
      by destruct (ProcessVisualMsg_upsert mp s0 Hdp) as [v ->].
    + rewrite ProcessVisualMsg_other by congruence. by rewrite Hc.
  - rewrite visuals_PreRender. simpl. rewrite pose_loop_untouched by done.
    rewrite <- app_assoc. simpl. rewrite visual_loop_snoc2.
    destruct (Hbefore (ReceiveVisualMsg mp (ReceiveVisualMsg mc s)) eq_refl)
      as [Hc0 Hp0].
    set (s0 := foldl _ _ (visualMsgs s)) in *.
    rewrite ProcessVisualMsg_other by congruence.
    rewrite <- Hc. rewrite ProcessVisualMsg_create; [|done|by rewrite Hc].
    by rewrite Hpar, Hp0.
  - apply PreRender_is_registered. simpl.
    by rewrite latest_visual_snoc, decide_True.
Qed.

(** ** The pending pose list *)

Lemma length_filter_filter {A} (P Q : A → Prop)
    `{∀ x, Decision (P x)} `{∀ x, Decision (Q x)} (l : list A) :
  length (filter P (filter Q l)) ≤ length (filter P l).
Proof.
  induction l as [|x l IH]; [done|].
  rewrite (filter_cons Q), (filter_cons P).
  destruct (decide (Q x)), (decide (P x)).
  - rewrite filter_cons_True by done. simpl. lia.
  - by rewrite filter_cons_False.
  - simpl. lia.
  - done.
Qed.

Lemma pending_poses_PreRender X s :
  pending_poses X (PreRender s) ≤ pending_poses X s.
Proof.
  unfold pending_poses. rewrite poseMsgs_PreRender_filter.
  apply length_filter_filter.
Qed.

(** X7.  One pending pose per identifier at most is kept by every
    callback except a scene message with pose entries, and by every
    cycle. *)
Theorem pose_list_stays_deduplicated (evs : list Event) s :
  (∀ X, pending_poses X s ≤ 1) →
  Forall (λ e, no_embedded_poses e = true) evs →
  ∀ X, pending_poses X (run evs s) ≤ 1.
Proof.
  intros Hs Hev. induction evs as [|e evs IH] using rev_ind; [done|].
  apply Forall_app in Hev as [Hev He]. rewrite Forall_singleton in He.
  specialize (IH Hev). intros X. rewrite run_snoc.
  destruct e as [[m|m|m|m|m]|]; simpl in *; try apply IH.
  - unfold pending_poses.
    rewrite (proj1 (proj2 (ReceiveSceneMsg_fields m _))).
    destruct (scene_pose m); [|done]. rewrite app_nil_r. apply IH.
  - by apply ReceivePoseMsg_at_most_one.
  - etrans; [apply pending_poses_PreRender | apply IH].
Qed.

(** ** Between cycles *)

(** X8.  Callbacks only queue: through any sequence of callbacks without
    a cycle, the visual registry, the light registry and the selection
    object stay as they are. *)
Theorem registries_change_only_in_cycles (evs : list Event) s :
  Forall (λ e, is_frame e = false) evs →
  visuals (run evs s) = visuals s
  ∧ lights (run evs s) = lights s
  ∧ selectionObj (run evs s) = selectionObj s.
Proof.
  intros Hev. induction evs as [|e evs IH] using rev_ind; [done|].
  apply Forall_app in Hev as [Hev He]. rewrite Forall_singleton in He.
  destruct (IH Hev) as (IHv & IHl & IHs). rewrite run_snoc.
  destruct e as [cb|]; [|done]. simpl.
  by rewrite callback_visuals, callback_lights, callback_selectionObj.
Qed.

(** X9.  A cycle without a pending selection message makes no [Attach]
    call: the selection object keeps the visual it has, also when this
    same cycle deletes that visual from the registry. *)
Theorem deleted_visual_stays_attached X (d : VisualMsg) s :
  selectionMsg s = None → selectionObj s = Some X →
  latest_visual X (visualMsgs s) = Some d → is_delete d = true →
  selectionObj (PreRender s) = Some X ∧ visuals (PreRender s) !! X = None.
Proof.
  intros Hm Ho Hl Hd. split.
  - by rewrite selectionObj_PreRender, Hm.
  - apply PreRender_registered. by apply (visual_loop_deleted X _ d).
Qed.

(** ** A scene message and single messages *)

Lemma receive_visuals_all (l : list VisualMsg) s :
  foldl (λ acc m, ReceiveVisualMsg m acc) s l
  = set_visualMsgs (visualMsgs s ++ l) s.
Proof.
  revert s. induction l as [|m l IH]; intros s; simpl.
  - rewrite app_nil_r. by destruct s.
  - rewrite IH. simpl. by rewrite <- app_assoc.
Qed.

Lemma receive_lights_all (l : list LightMsg) s :
  foldl (λ acc m, ReceiveLightMsg m acc) s l
  = set_lightMsgs (lightMsgs s ++ l) s.
Proof.
  revert s. induction l as [|m l IH]; intros s; simpl.
  - rewrite app_nil_r. by destruct s.
  - rewrite IH. simpl. by rewrite <- app_assoc.
Qed.

Lemma erase_old_absent (id : string) (l : list PoseMsg) :
  filter (λ p, p_str_id p = id) l = [] → erase_old id l = l.
Proof.
  induction l as [|p l IH]; simpl; [done|].
  rewrite filter_cons. case_decide; [done|]. intros Hl. by rewrite IH.
Qed.

Lemma receive_poses_all (l : list PoseMsg) s :
  NoDup (p_str_id <$> l) →
  (∀ p, p ∈ l → pending_poses (p_str_id p) s = 0) →
  foldl (λ acc m, ReceivePoseMsg m acc) s l
  = set_poseMsgs (poseMsgs s ++ l) s.
Proof.
  revert s. induction l as [|m l IH]; intros s Hnd Hs; simpl.
  - rewrite app_nil_r. by destruct s.
  - apply NoDup_cons in Hnd as [Hm Hnd].
    assert (ReceivePoseMsg m s = set_poseMsgs (poseMsgs s ++ [m]) s) as ->.
    { unfold ReceivePoseMsg. rewrite erase_old_absent; [done|].
      apply length_zero_iff_nil. apply (Hs m). by left. }
    rewrite IH; [simpl; by rewrite <- app_assoc|done|].
    intros p Hp. unfold pending_poses. simpl.
    rewrite filter_app, length_app, filter_cons_False.
    + simpl. rewrite Nat.add_0_r. apply (Hs p). by right.
    + intros Heq. apply Hm. rewrite Heq. apply list_elem_of_fmap. eauto.
Qed.

(** X10.  When the pose entries of a scene message have pairwise different
    identifiers, none of them pending already, [ReceiveSceneMsg] leaves
    the scene that the separate callbacks leave when they are handed its
    visuals, then its poses, then its lights, one message at a time. *)
Theorem scene_msg_as_single_messages (m : SceneMsg) s :
  NoDup (p_str_id <$> scene_pose m) →
  (∀ p, p ∈ scene_pose m → pending_poses (p_str_id p) s = 0) →
  ReceiveSceneMsg m s
  = let s1 := foldl (λ acc x, ReceiveVisualMsg x acc) s (scene_visual m) in
    let s2 := foldl (λ acc x, ReceivePoseMsg x acc) s1 (scene_pose m) in
    let s3 := foldl (λ acc x, ReceiveLightMsg x acc) s2 (scene_light m) in
    match scene_ambient m with
    | Some c => SetAmbientColor c s3
    | None => s3
    end.
Proof.
  intros Hnd Hs. simpl.
  rewrite receive_visuals_all, receive_poses_all, receive_lights_all; done.
Qed.

End CycleFacts.

(** * More on the threads *)

Section ScheduleFacts.
Context `{Entities}.
Implicit Types (s : Scene) (c : Config).

Lemma start_consistent s (cbs : list Callback) :
  mutex_consistent (start s cbs).
Proof.
  unfold mutex_consistent. simpl. split; [done|].
  intros i pc Hi. by apply list_lookup_fmap_Some in Hi as (cb & -> & _).
Qed.

Lemma in_callback_insert (ps : list ProducerPc) (j i : nat) (new pc : ProducerPc) :
  <[j := new]> ps !! i = Some pc →
  (i = j ∧ pc = new ∧ j < length ps) ∨ (i ≠ j ∧ ps !! i = Some pc).
Proof.
  intros Hi. destruct (decide (i = j)) as [->|Hne].
  - left. assert (j < length ps) as Hlt.
    { apply lookup_lt_Some in Hi. by rewrite length_insert in Hi. }
    rewrite list_lookup_insert_eq in Hi by done. by injection Hi as <-.
  - right. by rewrite list_lookup_insert_ne in Hi.
Qed.

Lemma thread_step_consistent (t : Thread) c c' :
  thread_step t c = Some c' → mutex_consistent c → mutex_consistent c'.
Proof.
  unfold mutex_consistent. intros Hstep Hc. destruct t as [|j]; simpl in Hstep.
  - unfold consumer_step in Hstep.
    destruct (consumer c) eqn:Epc; simpl in *.
    + destruct (receiveMutex c) eqn:Em; [done|].
      injection Hstep as <-. simpl. naive_solver.
    + destruct (visualMsgs (scene c) !! i); injection Hstep as <-; simpl;
        destruct (receiveMutex c) as [[|k]|]; naive_solver.
    + destruct (lightMsgs (scene c) !! i); injection Hstep as <-; simpl;
        destruct (receiveMutex c) as [[|k]|]; naive_solver.
    + destruct (poseMsgs (scene c) !! i) as [p|];
        [destruct (visuals (scene c) !! p_str_id p)|];
        injection Hstep as <-; simpl;
        destruct (receiveMutex c) as [[|k]|]; naive_solver.
    + destruct (selectionMsg (scene c)); injection Hstep as <-; simpl;
        destruct (receiveMutex c) as [[|k]|]; naive_solver.
    + destruct (selectionMsg (scene c)); [|done].
      injection Hstep as <-; simpl.
      destruct (receiveMutex c) as [[|k]|]; naive_solver.
    + injection Hstep as <-; simpl.
      destruct (receiveMutex c) as [[|k]|]; naive_solver.
    + injection Hstep as <-; simpl.
      destruct (receiveMutex c) as [[|k]|]; naive_solver.
    + injection Hstep as <-; simpl.
      destruct (receiveMutex c) as [[|k]|]; naive_solver.
    + done.
  - unfold producer_step in Hstep.
    destruct (producers c !! j) as [[cb|cb| |]|] eqn:Ej; try done.
    + destruct (takes_lock cb).
      * destruct (receiveMutex c) eqn:Em; [done|].
        injection Hstep as <-. simpl. destruct Hc as [Hcyc Hps].
        split; [done|]. split.
        { exists (Holding cb). split; [|done].
          apply list_lookup_insert_eq. by eapply lookup_lt_Some. }
        intros i pc Hi Hin.
        apply in_callback_insert in Hi as [(-> & _)|[_ Hi]]; [done|].
        specialize (Hps i pc Hi). congruence.
      * injection Hstep as <-. simpl.
        destruct (receiveMutex c) as [[|k]|].
        -- destruct Hc as [Hcyc Hps]. split; [done|]. intros i pc Hi.
           apply in_callback_insert in Hi as [(_ & -> & _)|[_ Hi]]; eauto.
        -- destruct Hc as (Hcyc & (pk & Hk & Hink) & Hps). split; [done|].
           split.
           { exists pk. split; [|done]. rewrite list_lookup_insert_ne; [done|].
             intros ->. rewrite Ej in Hk. by injection Hk as <-. }
           intros i pc Hi Hin.
           apply in_callback_insert in Hi as [(_ & -> & _)|[_ Hi]]; eauto.
           done.
        -- destruct Hc as [Hcyc Hps]. split; [done|]. intros i pc Hi.
           apply in_callback_insert in Hi as [(_ & -> & _)|[_ Hi]]; eauto.
    + injection Hstep as <-. simpl.
      destruct (receiveMutex c) as [[|k]|].
      * destruct Hc as [_ Hps]. by specialize (Hps j _ Ej).
      * destruct Hc as (Hcyc & _ & Hps). split; [done|].
        assert (j = k) as <- by (by apply (Hps j (Holding cb))).
        split.
        { exists Leaving. split; [|done].
          apply list_lookup_insert_eq. by eapply lookup_lt_Some. }
        intros i pc Hi Hin.
        apply in_callback_insert in Hi as [(-> & _)|[_ Hi]]; eauto.
      * destruct Hc as [_ Hps]. by specialize (Hps j _ Ej).
    + injection Hstep as <-. simpl.
      destruct (receiveMutex c) as [[|k]|].
      * destruct Hc as [_ Hps]. by specialize (Hps j _ Ej).
      * destruct Hc as (Hcyc & _ & Hps). split; [done|].
        assert (j = k) as <- by (by apply (Hps j Leaving)).
        intros i pc Hi.
        apply in_callback_insert in Hi as [(_ & -> & _)|[Hne Hi]]; [done|].
        destruct (in_callback pc) eqn:Hin; [|done].
        by specialize (Hps i pc Hi Hin).
      * destruct Hc as [_ Hps]. by specialize (Hps j _ Ej).
Qed.

Lemma schedule_consistent (ts : list Thread) c c' :
  schedule ts c = Some c' → mutex_consistent c → mutex_consistent c'.
Proof.
  revert c. induction ts as [|t ts IH]; intros c; simpl.
  - by intros [= ->].
  - destruct (thread_step t c) as [c1|] eqn:Et; [|done].
    intros Hs Hc. apply (IH c1 Hs). by apply (thread_step_consistent t c).
Qed.

(** X11.  Mutual exclusion.  However the threads interleave, the render
    thread is never inside [PreRender] while a transport thread is inside
    a locked callback, and two transport threads are never inside locked
    callbacks together. *)
Theorem receive_mutex_excludes s (cbs : list Callback) (ts : list Thread) c :
  schedule ts (start s cbs) = Some c →
  (in_cycle (consumer c) = true →
   ∀ i pc, producers c !! i = Some pc → in_callback pc = false)
  ∧ (∀ i j pci pcj,
       producers c !! i = Some pci → in_callback pci = true →
       producers c !! j = Some pcj → in_callback pcj = true → i = j).
Proof.
  intros Hs.
  pose proof (schedule_consistent ts _ c Hs (start_consistent s cbs)) as Hc.
  unfold mutex_consistent in Hc.
  destruct (receiveMutex c) as [[|k]|].
  - destruct Hc as [_ Hps]. split; [done|].
    intros i j pci pcj Hi Hini. by rewrite (Hps i pci Hi) in Hini.
  - destruct Hc as (Hcyc & _ & Hps). split; [by rewrite Hcyc|].
    intros i j pci pcj Hi Hini Hj Hinj.
    by rewrite (Hps i pci Hi Hini), (Hps j pcj Hj Hinj).
  - destruct Hc as [Hcyc Hps]. split; [by rewrite Hcyc|].
    intros i j pci pcj Hi Hini. by rewrite (Hps i pci Hi) in Hini.
Qed.

(** No callback resets the pending selection message: once the render
    thread has found one at the test, there still is one at the lookup. *)
Lemma callback_selectionMsg (cb : Callback) s :
  is_Some (selectionMsg s) → is_Some (selectionMsg (callback_body cb s)).
Proof.
  destruct cb as [m|m|m|m|m]; simpl; try done.
  by rewrite (proj1 (proj2 (proj2 (proj2 (proj2 (proj2
                (ReceiveSceneMsg_fields m s))))))).
Qed.

Lemma thread_step_selection_present (t : Thread) c c' :
  thread_step t c = Some c' →
  (consumer c = CFind → is_Some (selectionMsg (scene c))) →
  consumer c' = CFind → is_Some (selectionMsg (scene c')).
Proof.
  intros Hstep Hc. destruct t as [|j]; simpl in Hstep.
  - unfold consumer_step in Hstep.
    destruct (consumer c) as [|i|i|i| | |v| | |] eqn:Epc.
    + destruct (receiveMutex c); [done|]. by injection Hstep as <-.
    + destruct (visualMsgs (scene c) !! i); by injection Hstep as <-.
    + destruct (lightMsgs (scene c) !! i); by injection Hstep as <-.
    + destruct (poseMsgs (scene c) !! i) as [p|]; [|by injection Hstep as <-].
      destruct (visuals (scene c) !! p_str_id p); by injection Hstep as <-.
    + destruct (selectionMsg (scene c)) eqn:Esel; injection Hstep as <-;
        simpl; [|done]. intros _. by rewrite Esel.
    + destruct (selectionMsg (scene c)); [|done]. by injection Hstep as <-.
    + by injection Hstep as <-.
    + by injection Hstep as <-.
    + by injection Hstep as <-.
    + done.
  - unfold producer_step in Hstep.
    destruct (producers c !! j) as [[cb|cb| |]|]; try done.
    + destruct (takes_lock cb).
      * destruct (receiveMutex c); [done|]. by injection Hstep as <-.
      * injection Hstep as <-. simpl. intros Hpc.
        apply callback_selectionMsg. auto.
    + injection Hstep as <-. simpl. intros Hpc.
      apply callback_selectionMsg. auto.
    + by injection Hstep as <-.
Qed.

Lemma schedule_selection_present (ts : list Thread) c c' :
  schedule ts c = Some c' →
  (consumer c = CFind → is_Some (selectionMsg (scene c))) →
  consumer c' = CFind → is_Some (selectionMsg (scene c')).
Proof.
  revert c. induction ts as [|t ts IH]; intros c; simpl.
  - by intros [= ->].
  - destruct (thread_step t c) as [c1|] eqn:Et; [|done].
    intros Hs Hc. apply (IH c1 Hs). by apply (thread_step_selection_present t c).
Qed.

(** X12.  No deadlock.  However the threads have interleaved so far, as
    long as some thread has not returned, some thread can take a step. *)
Theorem some_thread_can_move s (cbs : list Callback) (ts : list Thread) c :
  schedule ts (start s cbs) = Some c → unfinished c →
  ∃ t c', thread_step t c = Some c'.
Proof.
  intros Hs Hun.
  pose proof (schedule_consistent ts _ c Hs (start_consistent s cbs)) as Hc.
  pose proof (schedule_selection_present ts _ c Hs) as Hsel.
  unfold mutex_consistent in Hc.
  assert (in_cycle (consumer c) = true → ∃ c', thread_step Consumer c = Some c')
    as Hmove_c.
  { simpl. unfold consumer_step. intros Hin.
    destruct (consumer c) as [|i|i|i| | |v| | |] eqn:Epc; try done; eauto.
    - destruct (visualMsgs (scene c) !! i); eauto.
    - destruct (lightMsgs (scene c) !! i); eauto.
    - destruct (poseMsgs (scene c) !! i) as [p|]; eauto.
      destruct (visuals (scene c) !! p_str_id p); eauto.
    - destruct (selectionMsg (scene c)); eauto.
    - destruct Hsel as [sel ->]; [done..|]. eauto. }
  assert (∀ j pc, producers c !! j = Some pc → in_callback pc = true →
            ∃ c', thread_step (Producer j) c = Some c') as Hmove_p.
  { simpl. unfold producer_step. intros j pc Hj Hin. rewrite Hj.
    destruct pc; try done; eauto. }
  destruct (receiveMutex c) as [[|k]|] eqn:Em.
  - destruct Hc as [Hcyc _]. exists Consumer. auto.
  - destruct Hc as (_ & (pc & Hk & Hin) & _). exists (Producer k). eauto.
  - destruct Hc as [Hcyc Hps]. destruct Hun as [Hcons|(i & pc & Hi & Hpc)].
    + exists Consumer. simpl. unfold consumer_step. rewrite Em.
      destruct (consumer c); try done; eauto.
    + exists (Producer i). simpl. unfold producer_step. rewrite Hi, Em.
      specialize (Hps i pc Hi). destruct pc; try done.
      destruct (takes_lock cb); eauto.
Qed.

(** X13.  Run without interference, the render thread takes the mutex,
    works through the visual, light and pose loops and the selection
    block one step at a time, releases the mutex, and has then turned the
    scene into [PreRender s]; the waiting transport threads are as they
    were. *)
Theorem render_thread_alone_runs_PreRender s (cbs : list Callback) :
  ∃ n, schedule (replicate n Consumer) (start s cbs)
       = Some (mkConfig (PreRender s) None CReturned (Entering <$> cbs)).
Proof. apply consumer_runs_PreRender. Qed.

(** ** Interleavings and whole events *)



















End ScheduleFacts.

(** * The order of a cycle *)

Section CycleOrder.
Context `{Entities} {readback : PoseReadback}.
Implicit Types (s : Scene) (X : string).

(** C2.  Run by the render thread, [PreRender] applies, in this order:
    every pending visual message, first come first, to
    [ProcessVisualMsg]; then every pending light message, first come
    first, to [ProcessLightMsg]; then, in the order of the pending list,
    the pose of every pending pose message whose visual is registered by
    then; then the pending selection, if there is one, to the selection
    object.  Both message lists are empty afterwards, and the light
    registry has, besides the lights it had, one for every identifier
    with a pending light message, loaded from the first such message.
    In particular, when the last pending visual message for [X] is not a
    delete and a pose for [X] is pending, the cycle leaves [X] registered
    with the last pending pose applied last, no pose for [X] stays
    pending, and a pending selection of [X] attaches it. *)
Theorem visual_pose_selection_order (cbs : list Callback) s :
  (∃ n, schedule (replicate n Consumer) (start s cbs)
        = Some (mkConfig (PreRender s) None CReturned (Entering <$> cbs))
        ∧ consumer_trace n (start s cbs)
          = (ApVisual <$> visualMsgs s)
            ++ (ApLight <$> lightMsgs s)
            ++ (ApPose <$> filter (λ p, is_Some (visuals (PreRender s) !! p_str_id p))
                             (poseMsgs s))
            ++ match selectionMsg s with
               | Some _ => [ApSelection (selectionObj (PreRender s))]
               | None => []
               end)
  ∧ visualMsgs (PreRender s) = []
  ∧ lightMsgs (PreRender s) = []
  ∧ (∀ L, lights (PreRender s) !! L
          = match lights s !! L with
            | Some l => Some l
            | None =>
                (λ m, Light_LoadFromMsg m Light_new) <$> first_light L (lightMsgs s)
            end)
  ∧ (∀ X (vm : VisualMsg) (pm : PoseMsg),
       latest_visual X (visualMsgs s) = Some vm → is_delete vm = false →
       latest_pose X (poseMsgs s) = Some pm →
       (∃ e, visuals (PreRender s) !! X = Some e
             ∧ (∃ v, e = SetPose (p_pose pm) v) ∧ GetPose e = p_pose pm)
       ∧ latest_pose X (poseMsgs (PreRender s)) = None
       ∧ (∀ sel, selectionMsg s = Some sel → s_str_id sel = X →
                 selectionObj (PreRender s) = Some X)).
Proof.
  split; [apply consumer_runs_PreRender_trace|].
  split; [apply visualMsgs_PreRender|].
  split; [apply lightMsgs_PreRender|].
  split; [intros L; rewrite lights_PreRender; apply light_loop_lookup|].
  intros X vm pm Hv Hd Hp.
  destruct (PreRender_resolves X vm pm s Hv Hd Hp) as [Happly Hgone].
  split; [by apply applied_pose_read|]. split; [done|].
  intros sel Hsel Hid. rewrite selectionObj_PreRender, Hsel, Hid.
  by destruct Happly as [v ->].
Qed.

End CycleOrder.

(** * The scene object *)

Section SceneObjectFacts.
Context `{Views}.
Implicit Types (o : SceneObj).

(** X15.  [CreateCamera] appends: the camera it returns is found at the
    index that was the camera count before, the cameras at lower indices
    are the same as before, the count goes up by one, and any index from
    the new size on gives the null pointer.  The count is an
    [unsigned int], so this needs fewer than 2^32 cameras. *)
Theorem created_camera_is_last (name_ : string) o :
  (N.of_nat (length (cameras o)) < UINT_RANGE)%N →
  GetCamera (GetCameraCount o) (CreateCamera name_ o).2
  = Some (CreateCamera name_ o).1
  ∧ (∀ i, (i < GetCameraCount o)%N →
          GetCamera i (CreateCamera name_ o).2 = GetCamera i o)
  ∧ N.of_nat (length (cameras (CreateCamera name_ o).2))
    = (GetCameraCount o + 1)%N
  ∧ (∀ i, (GetCameraCount o + 1 ≤ i)%N →
          GetCamera i (CreateCamera name_ o).2 = None).
Proof.
  intros Hlt. unfold GetCameraCount, GetCamera. simpl.
  rewrite N.mod_small by done. rewrite length_app. simpl.
  split; [|split; [|split]].
  - rewrite decide_True by lia. rewrite Nat2N.id.
    by rewrite list_lookup_middle.
  - intros i Hi. rewrite !decide_True by lia.
    apply lookup_app_l. lia.
  - lia.
  - intros i Hi. by rewrite decide_False by lia.
Qed.

(** X16.  The same for user cameras, which are stored after [Load] and
    [Init]. *)
Theorem created_user_camera_is_last (name_ : string) o :
  (N.of_nat (length (userCameras o)) < UINT_RANGE)%N →
  GetUserCamera (GetUserCameraCount o) (CreateUserCamera name_ o).2
  = Some (CreateUserCamera name_ o).1
  ∧ (∀ i, (i < GetUserCameraCount o)%N →
          GetUserCamera i (CreateUserCamera name_ o).2 = GetUserCamera i o)
  ∧ N.of_nat (length (userCameras (CreateUserCamera name_ o).2))
    = (GetUserCameraCount o + 1)%N
  ∧ (∀ i, (GetUserCameraCount o + 1 ≤ i)%N →
          GetUserCamera i (CreateUserCamera name_ o).2 = None).
Proof.
  intros Hlt. unfold GetUserCameraCount, GetUserCamera. simpl.
  rewrite N.mod_small by done. rewrite length_app. simpl.
  split; [|split; [|split]].
  - rewrite decide_True by lia. rewrite Nat2N.id.
    by rewrite list_lookup_middle.
  - intros i Hi. rewrite !decide_True by lia.
    apply lookup_app_l. lia.
  - lia.
  - intros i Hi. by rewrite decide_False by lia.
Qed.

(** X17.  [GetGrid] returns NULL exactly when the index is not below the
    number of grids, and it reports an error exactly then. *)
Theorem GetGrid_null_iff_error (index : N) o :
  ((GetGrid index o).1 = None ↔ (N.of_nat (length (grids o)) ≤ index)%N)
  ∧ (is_Some (GetGrid index o).2 ↔ (N.of_nat (length (grids o)) ≤ index)%N).
Proof.
  unfold GetGrid. case_decide as Hi; simpl.
  - split; split; eauto.
  - split.
    + split; [|done]. intros Hn. apply lookup_ge_None in Hn. lia.
    + split; [by intros [? ?]|done].
Qed.

Lemma apply_ops_snoc (ops : list SceneOp) (op : SceneOp) o :
  apply_ops (ops ++ [op]) o = apply_op op (apply_ops ops o).
Proof. unfold apply_ops. by rewrite foldl_snoc. Qed.

(** X18.  For a scene made by the constructor and then taken through any
    operations: grid 0, the grid of the constructor, is always there; a
    scene manager exists exactly when [Init] has been called; and while
    one exists every grid has been initialised, whether it was created
    before [Init] or after. *)
Theorem grids_initialised (name_ : string) (idCounter : N) (ops : list SceneOp) :
  let o := apply_ops ops (Scene_new name_ idCounter).1 in
  (∃ g, GetGrid 0 o = (Some g, None))
  ∧ (manager o = true ↔ OpInit ∈ ops)
  ∧ (manager o = true → Forall (λ g, ∃ g0, g = Grid_Init g0) (grids o)).
Proof.
  simpl. induction ops as [|op ops IH] using rev_ind.
  - simpl. split; [by eexists|]. split; [|done].
    split; [done|]. by intros ?%elem_of_nil.
  - rewrite apply_ops_snoc. destruct IH as ((g & Hg) & Hm & Hinit).
    set (o := apply_ops ops _) in *.
    assert (∃ g1 rest, grids o = g1 :: rest) as (g1 & rest & Hgr).
    { unfold GetGrid in Hg. case_decide; [done|].
      destruct (grids o) as [|g1 rest]; [simpl in *; lia|eauto]. }
    destruct op as [|n l w c|n|n]; simpl.
    + split; [|split].
      * unfold GetGrid. simpl. rewrite Hgr. by eexists.
      * split; [intros _|done]. apply elem_of_app. right. by left.
      * intros _. apply Forall_fmap, Forall_forall. intros x _. by eexists.
    + split; [|split].
      * unfold GetGrid. simpl. rewrite Hgr. by eexists.
      * rewrite Hm, elem_of_app. split; [by left|].
        intros [Hin|Hin%list_elem_of_singleton]; done.
      * intros Hman. apply Forall_app. split; [by apply Hinit|].
        apply Forall_singleton. rewrite Hman. by eexists.
    + split; [|split].
      * unfold GetGrid. simpl. rewrite Hgr. by eexists.
      * rewrite Hm, elem_of_app. split; [by left|].
        intros [Hin|Hin%list_elem_of_singleton]; done.
      * done.
    + split; [|split].
      * unfold GetGrid. simpl. rewrite Hgr. by eexists.
      * rewrite Hm, elem_of_app. split; [by left|].
        intros [Hin|Hin%list_elem_of_singleton]; done.
      * done.
Qed.

(** ** Scene identifiers *)

Lemma mod_uint_range (x : N) :
  (x < 2 * UINT_RANGE)%N →
  (x mod UINT_RANGE)%N
  = if decide (x < UINT_RANGE)%N then x else (x - UINT_RANGE)%N.
Proof.
  unfold UINT_RANGE. intros Hx. case_decide.
  - by apply N.mod_small.
  - symmetry. apply (N.mod_unique x 4294967296 1); lia.
Qed.

Lemma construct_scenes_ids (names : list string) (idCounter : N) (k : nat)
    (o : SceneObj) :
  (construct_scenes names idCounter).1 !! k = Some o →
  (idCounter < UINT_RANGE)%N →
  id o = ((idCounter + N.of_nat k) mod UINT_RANGE)%N
  ∧ idString o = pretty (id o).
Proof.
  revert idCounter k. induction names as [|n names IH]; intros c k; [done|].
  simpl. destruct k as [|k]; simpl.
  - intros [= <-] Hc. simpl. by rewrite N.add_0_r, N.mod_small.
  - intros Hk Hc. destruct (IH _ _ Hk) as [-> Hstr].
    { by apply N.mod_lt. }
    split; [|done]. unfold UINT_RANGE in *.
    rewrite N.Div0.add_mod_idemp_l. f_equal. lia.
Qed.

(** X19.  The k-th scene constructed gets the identifier
    [idCounter + k] modulo 2^32, and its [idString] is that number in
    decimal.  So among at most 2^32 scenes constructed one after the
    other, no two share an identifier or an identifier string. *)
Theorem scene_ids_distinct (names : list string) (idCounter : N) :
  (idCounter < UINT_RANGE)%N →
  (N.of_nat (length names) ≤ UINT_RANGE)%N →
  let scenes := (construct_scenes names idCounter).1 in
  (∀ k o, scenes !! k = Some o →
          id o = ((idCounter + N.of_nat k) mod UINT_RANGE)%N)
  ∧ NoDup (id <$> scenes)
  ∧ NoDup (idString <$> scenes).
Proof.
  intros Hc Hn. simpl.
  assert (length (construct_scenes names idCounter).1 = length names) as Hlen.
  { clear. revert idCounter. induction names as [|n names IH]; intros c; [done|].
    simpl. by rewrite IH. }
  assert (∀ i j oi oj,
            (construct_scenes names idCounter).1 !! i = Some oi →
            (construct_scenes names idCounter).1 !! j = Some oj →
            id oi = id oj → i = j) as Hinj.
  { intros i j oi oj Hi Hj.
    destruct (construct_scenes_ids _ _ _ _ Hi Hc) as [-> _].
    destruct (construct_scenes_ids _ _ _ _ Hj Hc) as [-> _].
    apply lookup_lt_Some in Hi, Hj. rewrite Hlen in Hi, Hj.
    rewrite !mod_uint_range by (unfold UINT_RANGE in *; lia).
    unfold UINT_RANGE in *. repeat case_decide; lia. }
  split; [|split].
  - intros k o Hk. by apply (construct_scenes_ids names idCounter k o).
  - apply NoDup_alt. intros i j x Hi Hj.
    apply list_lookup_fmap_Some in Hi as (oi & -> & Hi).
    apply list_lookup_fmap_Some in Hj as (oj & Hx & Hj). eauto.
  - apply NoDup_alt. intros i j x Hi Hj.
    apply list_lookup_fmap_Some in Hi as (oi & -> & Hi).
    apply list_lookup_fmap_Some in Hj as (oj & Hx & Hj).
    destruct (construct_scenes_ids _ _ _ _ Hi Hc) as [_ Hsi].
    destruct (construct_scenes_ids _ _ _ _ Hj Hc) as [_ Hsj].
    rewrite Hsi, Hsj in Hx. apply (inj pretty) in Hx. eauto.
Qed.

End SceneObjectFacts.

(** * Mesh information *)

Section MeshFacts.
Context {Vector3 : Type} (transform : Vector3 → Vector3) (mesh : @Mesh Vector3).

Lemma size_add_small (x y : N) :
  (x + y < SIZE_RANGE)%N → size_add x y = (x + y)%N.
Proof. intros Hs. unfold size_add. by apply N.mod_small. Qed.

Lemma write_next {A} (done : list A) (rest : nat) (x : A) :
  write ((Some <$> done) ++ replicate (S rest) None) (N.of_nat (length done)) x
  = Some ((Some <$> (done ++ [x])) ++ replicate rest None).
Proof.
  unfold write. rewrite length_app, length_fmap, length_replicate.
  rewrite decide_True by lia. rewrite Nat2N.id. f_equal.
  rewrite fmap_app, <- app_assoc. simpl.
  rewrite insert_app_r_alt by (by rewrite length_fmap).
  by rewrite length_fmap, Nat.sub_diag.
Qed.

Lemma fmap_seq_from {A} (f : N → A) (j : N) (n : nat) :
  (λ i, f (j + N.of_nat i)%N) <$> seq 0 (S n)
  = f j :: ((λ i, f (j + 1 + N.of_nat i)%N) <$> seq 0 n).
Proof.
  rewrite <- cons_seq, fmap_cons, N.add_0_r. f_equal.
  rewrite <- fmap_S_seq, <- list_fmap_compose.
  apply list_fmap_ext. intros i x _. simpl. f_equal. lia.
Qed.

Lemma write_vertices_spec (vd : @VertexData Vector3) (n : nat) :
  ∀ (j off : N) (done : list Vector3) (rest : nat),
    (off + j = N.of_nat (length done))%N → n ≤ rest →
    (N.of_nat (length done + rest) < SIZE_RANGE)%N →
    write_vertices transform vd off j n ((Some <$> done) ++ replicate rest None)
    = Some ((Some <$> (done ++ ((λ i, transform (vertex_at vd (j + N.of_nat i)%N))
                                 <$> seq 0 n)))
            ++ replicate (rest - n) None).
Proof.
  induction n as [|n IH]; intros j off done rest Hoff Hn Hsize.
  - simpl. by rewrite app_nil_r, Nat.sub_0_r.
  - rewrite (fmap_seq_from (λ x, transform (vertex_at vd x))).
    destruct rest as [|rest]; [lia|]. cbn [write_vertices].
    rewrite size_add_small by lia. rewrite Hoff, write_next.
    rewrite (IH (j + 1)%N off (done ++ [transform (vertex_at vd j)]) rest).
    + by rewrite <- app_assoc.
    + rewrite length_app. simpl. lia.
    + lia.
    + rewrite length_app. simpl.
      replace (length done + 1 + rest) with (length done + S rest) by lia. done.
Qed.

Lemma write_indices_spec (idata : IndexData) (n : nat) :
  ∀ (k : N) (done : list N) (rest : nat),
    n ≤ rest → (N.of_nat (length done + rest) < SIZE_RANGE)%N →
    write_indices idata k n (N.of_nat (length done))
      ((Some <$> done) ++ replicate rest None)
    = Some (N.of_nat (length done + n),
            (Some <$> (done ++ ((λ i, if use32bitindexes idata
                                       then pLong idata (k + N.of_nat i)%N
                                       else pShort idata (k + N.of_nat i)%N)
                                 <$> seq 0 n)))
            ++ replicate (rest - n) None).
Proof.
  induction n as [|n IH]; intros k done rest Hn Hsize.
  - simpl. by rewrite app_nil_r, Nat.sub_0_r, Nat.add_0_r.
  - rewrite (fmap_seq_from (λ x, if use32bitindexes idata
                                 then pLong idata x else pShort idata x)).
    destruct rest as [|rest]; [lia|]. cbn [write_indices].
    rewrite write_next. rewrite size_add_small by lia.
    replace (N.of_nat (length done) + 1)%N
      with (N.of_nat (length (done ++ [if use32bitindexes idata
                                       then pLong idata k else pShort idata k])))
      by (rewrite length_app; simpl; lia).
    rewrite (IH (k + 1)%N _ rest).
    + rewrite length_app. simpl. rewrite <- app_assoc. simpl.
      do 2 f_equal. lia.
    + lia.
    + rewrite length_app. simpl.
      replace (length done + 1 + rest) with (length done + S rest) by lia. done.
Qed.

Lemma length_vertex_list (vd : @VertexData Vector3) :
  length (vertex_list transform vd) = N.to_nat (vertexCount vd).
Proof. unfold vertex_list. by rewrite length_fmap, length_seq. Qed.

Lemma length_index_list (idata : IndexData) :
  length (index_list idata) = N.to_nat (indexCount idata / 3 * 3).
Proof. unfold index_list. by rewrite length_fmap, length_seq. Qed.

Lemma index_list_le (idata : IndexData) :
  (N.of_nat (length (index_list idata)) ≤ indexCount idata)%N.
Proof.
  rewrite length_index_list, N2Nat.id.
  pose proof (N.Div0.mul_div_le (indexCount idata) 3). lia.
Qed.

Lemma mesh_indices_le (sms : list (@SubMesh Vector3)) :
  (N.of_nat (length (mesh_indices sms)) ≤ index_total sms)%N.
Proof.
  unfold mesh_indices, index_total.
  induction sms as [|sm sms IH]; csimpl; [done|].
  rewrite length_app.
  pose proof (index_list_le (indexData sm)). lia.
Qed.

(** The first loop counts the vertices that the second loop will copy and
    sums the index counts. *)
Lemma count_pass_spec (sms : list (@SubMesh Vector3)) :
  ∀ (added : bool) (vc ic : N),
    (vc + N.of_nat (length (mesh_vertices transform mesh added sms)) < SIZE_RANGE)%N →
    (ic + index_total sms < SIZE_RANGE)%N →
    (foldl (count_submesh mesh) (added, vc, ic) sms).1.2
    = (vc + N.of_nat (length (mesh_vertices transform mesh added sms)))%N
    ∧ (foldl (count_submesh mesh) (added, vc, ic) sms).2
      = (ic + index_total sms)%N.
Proof.
  induction sms as [|sm sms IH]; intros added vc ic Hv Hi; simpl in *.
  - by rewrite !N.add_0_r.
  - destruct (useSharedVertices sm); [destruct added|]; simpl in *.
    + rewrite (size_add_small ic) by lia.
      destruct (IH true vc (ic + indexCount (indexData sm))%N) as [-> ->];
        [lia..|]. split; lia.
    + rewrite length_app, length_vertex_list in *.
      rewrite (size_add_small ic), (size_add_small vc) by lia.
      destruct (IH true (vc + vertexCount (sharedVertexData mesh))%N
                  (ic + indexCount (indexData sm))%N) as [-> ->]; [lia..|].
      split; lia.
    + rewrite length_app, length_vertex_list in *.
      rewrite (size_add_small ic), (size_add_small vc) by lia.
      destruct (IH added (vc + vertexCount (vertexData sm))%N
                  (ic + indexCount (indexData sm))%N) as [-> ->]; [lia..|].
      split; lia.
Qed.

Lemma mesh_vertices_cons (added : bool) (sm : @SubMesh Vector3)
    (sms : list (@SubMesh Vector3)) :
  mesh_vertices transform mesh added (sm :: sms)
  = (if useSharedVertices sm
     then if added then [] else vertex_list transform (sharedVertexData mesh)
     else vertex_list transform (vertexData sm))
    ++ mesh_vertices transform mesh (added || useSharedVertices sm) sms.
Proof.
  simpl. by destruct (useSharedVertices sm), added.
Qed.

(** One iteration of the second loop appends the vertices and the whole
    triangles of its submesh to what has been written. *)
Lemma fill_submesh_spec (sm : @SubMesh Vector3) (added : bool) (shared : N)
    (vdone : list Vector3) (vrest : nat) (idone : list N) (irest : nat) :
  let vs := if useSharedVertices sm
            then if added then [] else vertex_list transform (sharedVertexData mesh)
            else vertex_list transform (vertexData sm) in
  let ixs := index_list (indexData sm) in
  length vs ≤ vrest → length ixs ≤ irest →
  (N.of_nat (length vdone + vrest) < SIZE_RANGE)%N →
  (N.of_nat (length idone + irest) < SIZE_RANGE)%N →
  ∃ shared',
    fill_submesh transform mesh sm
      (mkFillState added (N.of_nat (length vdone)) shared
                   (N.of_nat (length vdone)) (N.of_nat (length idone))
                   ((Some <$> vdone) ++ replicate vrest None)
                   ((Some <$> idone) ++ replicate irest None))
    = Some (mkFillState (added || useSharedVertices sm)
              (N.of_nat (length (vdone ++ vs))) shared'
              (N.of_nat (length (vdone ++ vs)))
              (N.of_nat (length (idone ++ ixs)))
              ((Some <$> (vdone ++ vs)) ++ replicate (vrest - length vs) None)
              ((Some <$> (idone ++ ixs)) ++ replicate (irest - length ixs) None)).
Proof.
  intros vs ixs Hv Hi Hvs His. unfold fill_submesh. simpl.
  assert (write_indices (indexData sm) 0
            (N.to_nat (indexCount (indexData sm) / 3 * 3))
            (N.of_nat (length idone)) ((Some <$> idone) ++ replicate irest None)
          = Some (N.of_nat (length (idone ++ index_list (indexData sm))),
                  (Some <$> (idone ++ index_list (indexData sm)))
                  ++ replicate (irest - length (index_list (indexData sm))) None))
    as Hwi.
  { subst ixs. rewrite length_index_list in Hi.
    rewrite write_indices_spec by done.
    by rewrite length_app, length_index_list. }
  assert (∀ (vd : @VertexData Vector3),
            length (vertex_list transform vd) ≤ vrest →
            write_vertices transform vd (N.of_nat (length vdone)) 0
              (N.to_nat (vertexCount vd)) ((Some <$> vdone) ++ replicate vrest None)
            = Some ((Some <$> (vdone ++ vertex_list transform vd))
                    ++ replicate (vrest - length (vertex_list transform vd)) None)
            ∧ size_add (N.of_nat (length vdone)) (vertexCount vd)
              = N.of_nat (length (vdone ++ vertex_list transform vd))) as Hwv.
  { intros vd Hlen. rewrite length_vertex_list in Hlen. split.
    - rewrite (write_vertices_spec vd _ 0 (N.of_nat (length vdone)) vdone vrest);
        [|lia|done|done].
      by rewrite length_vertex_list.
    - rewrite size_add_small by lia.
      rewrite length_app, length_vertex_list. lia. }
  subst vs ixs. destruct (useSharedVertices sm); [destruct added|]; simpl in *.
  - exists shared. rewrite Hwi. by rewrite !app_nil_r, Nat.sub_0_r.
  - exists (N.of_nat (length vdone)).
    destruct (Hwv (sharedVertexData mesh) Hv) as [-> ->]. by rewrite Hwi.
  - exists shared. rewrite orb_false_r.
    destruct (Hwv (vertexData sm) Hv) as [-> ->]. by rewrite Hwi.
Qed.

Lemma mesh_indices_cons (sm : @SubMesh Vector3) (sms : list (@SubMesh Vector3)) :
  mesh_indices (sm :: sms) = index_list (indexData sm) ++ mesh_indices sms.
Proof. done. Qed.

Lemma fill_pass_spec (sms : list (@SubMesh Vector3)) :
  ∀ (added : bool) (shared : N) (vdone : list Vector3) (vrest : nat)
    (idone : list N) (irest : nat),
    length (mesh_vertices transform mesh added sms) ≤ vrest →
    length (mesh_indices sms) ≤ irest →
    (N.of_nat (length vdone + vrest) < SIZE_RANGE)%N →
    (N.of_nat (length idone + irest) < SIZE_RANGE)%N →
    ∃ st',
      fill_pass transform mesh sms
        (mkFillState added (N.of_nat (length vdone)) shared
                     (N.of_nat (length vdone)) (N.of_nat (length idone))
                     ((Some <$> vdone) ++ replicate vrest None)
                     ((Some <$> idone) ++ replicate irest None))
      = Some st'
      ∧ vertices st'
        = (Some <$> (vdone ++ mesh_vertices transform mesh added sms))
          ++ replicate (vrest - length (mesh_vertices transform mesh added sms)) None
      ∧ indices st'
        = (Some <$> (idone ++ mesh_indices sms))
          ++ replicate (irest - length (mesh_indices sms)) None.
Proof.
  induction sms as [|sm sms IH]; intros added shared vdone vrest idone irest.
  - simpl. intros _ _ _ _. eexists. split; [done|].
    by rewrite !app_nil_r, !Nat.sub_0_r.
  - rewrite mesh_vertices_cons, mesh_indices_cons, !length_app.
    intros Hv Hi Hvs His. cbn [fill_pass].
    destruct (fill_submesh_spec sm added shared vdone vrest idone irest)
      as [shared' ->]; [lia..|done|done|].
    set (vs := if useSharedVertices sm then _ else _) in *.
    destruct (IH (added || useSharedVertices sm) shared' (vdone ++ vs)
                (vrest - length vs) (idone ++ index_list (indexData sm))
                (irest - length (index_list (indexData sm))))
      as (st' & -> & Hvert & Hind).
    + lia.
    + lia.
    + rewrite length_app. replace (length vdone + length vs + (vrest - length vs))
        with (length vdone + vrest) by lia. done.
    + rewrite length_app.
      replace (length idone + length (index_list (indexData sm))
               + (irest - length (index_list (indexData sm))))
        with (length idone + irest) by lia. done.
    + exists st'. split; [done|]. rewrite Hvert, Hind.
      rewrite <- !app_assoc. split; do 2 f_equal; lia.
Qed.

Lemma GetMeshInformation_spec :
  let vs := mesh_vertices transform mesh false (subMeshes mesh) in
  let ixs := mesh_indices (subMeshes mesh) in
  (N.of_nat (length vs) < SIZE_RANGE)%N →
  (index_total (subMeshes mesh) < SIZE_RANGE)%N →
  GetMeshInformation transform mesh
  = Some (N.of_nat (length vs), Some <$> vs,
          index_total (subMeshes mesh),
          (Some <$> ixs)
          ++ replicate (N.to_nat (index_total (subMeshes mesh)) - length ixs) None).
Proof.
  intros vs ixs Hv Hi. unfold GetMeshInformation.
  destruct (count_pass_spec (subMeshes mesh) false 0 0) as [Hvc Hic]; [done..|].
  destruct (foldl (count_submesh mesh) (false, 0%N, 0%N) (subMeshes mesh))
    as [[b vc] ic]. simpl in Hvc, Hic. subst vc ic.
  rewrite !N.add_0_l. fold vs.
  pose proof (mesh_indices_le (subMeshes mesh)) as Hle. fold ixs in Hle.
  destruct (fill_pass_spec (subMeshes mesh) false 0 [] (length vs) []
              (N.to_nat (index_total (subMeshes mesh))))
    as (st' & Hfill & Hvert & Hind).
  - done.
  - fold ixs. lia.
  - simpl. done.
  - simpl. by rewrite N2Nat.id.
  - unfold new_array. rewrite Nat2N.id. simpl in Hfill.
    change (N.of_nat 0) with 0%N in Hfill. rewrite Hfill.
    rewrite Hvert, Hind. fold vs ixs. simpl.
    by rewrite Nat.sub_diag, app_nil_r.
Qed.

(** X20.  When the vertices to copy and the sum of the index counts stay
    below 2^64, [GetMeshInformation] writes inside its arrays only, and
    it returns: as [vertex_count] the number of vertices it has copied;
    as [vertices] exactly these, every slot written, in the order of the
    submeshes with the shared buffer once at the first submesh that uses
    it; as [index_count] the sum of the index counts; and as [indices],
    submesh after submesh, the values read as [pLong[k]] from a 32-bit
    buffer and as [pShort[k]] from a 16-bit one, for [k] below
    [3 * (indexCount / 3)], stored as read (no offset added), followed by
    slots that were never written.  Whether a value read is an entry of
    the buffer is not part of this: [pShort[k]] is, [pLong[k]] is only
    where [unsigned long] has 32 bits. *)
Theorem GetMeshInformation_fills :
  let vs := mesh_vertices transform mesh false (subMeshes mesh) in
  let ixs := mesh_indices (subMeshes mesh) in
  (N.of_nat (length vs) < SIZE_RANGE)%N →
  (index_total (subMeshes mesh) < SIZE_RANGE)%N →
  GetMeshInformation transform mesh
  = Some (N.of_nat (length vs), Some <$> vs,
          index_total (subMeshes mesh),
          (Some <$> ixs)
          ++ replicate (N.to_nat (index_total (subMeshes mesh)) - length ixs) None).
Proof. apply GetMeshInformation_spec. Qed.

(** X21.  In the returned [indices], exactly the first
    [3 * (indexCount / 3)] entries per submesh are written; so every slot
    is written if and only if every index count is a multiple of 3. *)
Theorem indices_all_written_iff :
  (N.of_nat (length (mesh_vertices transform mesh false (subMeshes mesh)))
   < SIZE_RANGE)%N →
  (index_total (subMeshes mesh) < SIZE_RANGE)%N →
  ∃ vc vertices ic indices,
    GetMeshInformation transform mesh = Some (vc, vertices, ic, indices)
    ∧ Forall is_Some vertices
    ∧ (Forall is_Some indices
       ↔ Forall (λ sm, (indexCount (indexData sm) mod 3 = 0)%N) (subMeshes mesh)).
Proof.
  intros Hv Hi. do 4 eexists. split; [by apply GetMeshInformation_spec|].
  split.
  { apply Forall_fmap, Forall_true. intros x. by eexists. }
  assert (∀ sms : list (@SubMesh Vector3),
            N.of_nat (length (mesh_indices sms)) = index_total sms
            ↔ Forall (λ sm, (indexCount (indexData sm) mod 3 = 0)%N) sms) as Hall.
  { clear. unfold mesh_indices, index_total.
    induction sms as [|sm sms IH]; csimpl; [done|].
    rewrite length_app, Forall_cons, <- IH.
    pose proof (index_list_le (indexData sm)) as H1.
    pose proof (mesh_indices_le sms) as H2.
    unfold mesh_indices, index_total in H2.
    rewrite length_index_list in *. rewrite N2Nat.id in H1.
    pose proof (N.Div0.div_mod (indexCount (indexData sm)) 3) as Hdm.
    split; [intros Heq|intros [Hm Heq]]; [split|]; lia. }
  rewrite <- Hall.
  pose proof (mesh_indices_le (subMeshes mesh)) as Hle.
  rewrite Forall_app. split.
  - intros [_ Hrep].
    destruct (N.to_nat (index_total (subMeshes mesh))
              - length (mesh_indices (subMeshes mesh))) as [|k] eqn:Ek; [lia|].
    simpl in Hrep. apply Forall_cons in Hrep as [[? [=]] _].
  - intros Heq. split.
    + apply Forall_fmap, Forall_true. intros x. by eexists.
    + replace (N.to_nat (index_total (subMeshes mesh))
               - length (mesh_indices (subMeshes mesh))) with 0 by lia.
      by apply Forall_nil.
Qed.

End MeshFacts.

(** * The small instance, continued *)

(** [GetMeshInformation] on the mesh of numbers, with [+ 1000] as the
    transformation: five vertices, and of the 13 index slots the last is
    never written, because the second submesh has 4 indices. *)
Example toy_mesh_information :
  GetMeshInformation (λ v, v + 1000)%N toy_mesh
  = Some (5%N, Some <$> [1010; 1011; 1020; 1021; 1022]%N,
          13%N,
          (Some <$> [100; 101; 102; 200; 201; 202; 100; 101; 102; 103; 104; 105]%N)
          ++ [None]).
Proof. by vm_compute. Qed.

Lemma cycle_leaves_other_visuals_witness :
  let s := ReceivePoseMsg (toy_pose "v2" 7)
             (PreRender (ReceiveVisualMsg (toy_visual "v1" 3) toy_empty)) in
  visuals (PreRender s) !! "v1" = visuals s !! "v1".
Proof. apply (cycle_leaves_other_visuals "v1"); reflexivity. Defined.

Lemma registered_light_is_final_witness :
  lights (run [Deliver (OnLight (toy_light "sun" 2)); Frame]
              (PreRender (ReceiveLightMsg (toy_light "sun" 1) toy_empty)))
    !! "sun" = Some 1.
Proof.
  apply (registered_light_is_final (H0 := toy_entities) _ _ "sun" 1).
  reflexivity.
Defined.

Lemma parent_must_come_first_witness :
  let mc := {| v_str_id := "wheel"; v_action := None;
               v_parent_id := Some "car"; v_body := 2 |} in
  let mp := toy_visual "car" 1 in
  visuals (PreRender (ReceiveVisualMsg mc (ReceiveVisualMsg mp toy_empty)))
    !! "wheel" = Some (LoadFromMsg mc (Visual_new "wheel" (Some "car")))
  ∧ visuals (PreRender (ReceiveVisualMsg mp (ReceiveVisualMsg mc toy_empty)))
      !! "wheel" = Some (LoadFromMsg mc (Visual_new "wheel" None))
  ∧ is_Some (visuals (PreRender (ReceiveVisualMsg mp (ReceiveVisualMsg mc toy_empty)))
               !! "car").
Proof.
  apply (parent_must_come_first "wheel" "car"); try reflexivity.
  apply (bool_decide_unpack _). by vm_compute.
Defined.

Lemma pose_list_stays_deduplicated_witness :
  pending_poses "a"
    (run [Deliver (OnPose (toy_pose "a" 1)); Deliver (OnPose (toy_pose "a" 2));
          Frame; Deliver (OnPose (toy_pose "b" 3))] toy_empty) ≤ 1.
Proof.
  apply (pose_list_stays_deduplicated
           [Deliver (OnPose (toy_pose "a" 1)); Deliver (OnPose (toy_pose "a" 2));
            Frame; Deliver (OnPose (toy_pose "b" 3))] toy_empty).
  - intros X. vm_compute. lia.
  - apply (bool_decide_unpack _). by vm_compute.
Defined.

Lemma registries_change_only_in_cycles_witness :
  let s := PreRender (ReceiveVisualMsg (toy_visual "v1" 3) toy_empty) in
  let evs := [Deliver (OnVisual (toy_delete "v1"));
              Deliver (OnSelection (toy_select "v1"))] in
  visuals (run evs s) = visuals s
  ∧ lights (run evs s) = lights s
  ∧ selectionObj (run evs s) = selectionObj s.
Proof.
  apply registries_change_only_in_cycles.
  apply (bool_decide_unpack _). by vm_compute.
Defined.

Lemma deleted_visual_stays_attached_witness :
  let s := ReceiveVisualMsg (toy_delete "v1")
             (PreRender (OnSelectionMsg (toy_select "v1")
                           (ReceiveVisualMsg (toy_visual "v1" 3) toy_empty))) in
  selectionObj (PreRender s) = Some "v1" ∧ visuals (PreRender s) !! "v1" = None.
Proof.
  apply (deleted_visual_stays_attached "v1" (toy_delete "v1")); reflexivity.
Defined.

Lemma scene_msg_as_single_messages_witness :
  let m := {| scene_visual := [toy_visual "v1" 1; toy_visual "v2" 2];
              scene_pose := [toy_pose "v1" 5; toy_pose "v2" 6];
              scene_light := [toy_light "sun" 1];
              scene_ambient := Some 9 |} in
  ReceiveSceneMsg m toy_empty
  = SetAmbientColor 9
      (foldl (λ acc x, ReceiveLightMsg x acc)
         (foldl (λ acc x, ReceivePoseMsg x acc)
            (foldl (λ acc x, ReceiveVisualMsg x acc) toy_empty (scene_visual m))
            (scene_pose m))
         (scene_light m)).
Proof.
  apply (scene_msg_as_single_messages
           {| scene_visual := [toy_visual "v1" 1; toy_visual "v2" 2];
              scene_pose := [toy_pose "v1" 5; toy_pose "v2" 6];
              scene_light := [toy_light "sun" 1];
              scene_ambient := Some 9 |} toy_empty).
  - apply (bool_decide_unpack _). by vm_compute.
  - intros p Hp. reflexivity.
Defined.

Lemma receive_mutex_excludes_witness :
  ∃ c, schedule [Producer 0; Producer 0]
         (start toy_empty [OnVisual (toy_visual "v1" 1); OnPose (toy_pose "v1" 2)])
       = Some c
       ∧ (in_cycle (consumer c) = true →
          ∀ i pc, producers c !! i = Some pc → in_callback pc = false)
       ∧ (∀ i j pci pcj,
            producers c !! i = Some pci → in_callback pci = true →
            producers c !! j = Some pcj → in_callback pcj = true → i = j).
Proof.
  eexists. split; [reflexivity|].
  apply (receive_mutex_excludes toy_empty
           [OnVisual (toy_visual "v1" 1); OnPose (toy_pose "v1" 2)]
           [Producer 0; Producer 0]).
  reflexivity.
Defined.

Lemma some_thread_can_move_witness :
  ∃ c, schedule [Producer 0; Consumer]
         (start toy_empty [OnSelection (toy_select "v1")]) = Some c
       ∧ ∃ t c', thread_step t c = Some c'.
Proof.
  eexists. split; [reflexivity|].
  apply (some_thread_can_move toy_empty [OnSelection (toy_select "v1")]
           [Producer 0; Consumer]); [reflexivity|].
  left. simpl. discriminate.
Defined.

(** A visual, a pose and a selection for "v1" and a light "sun" are
    pending, received in another order than the cycle applies them in. *)
Example cycle_order_trace :
  let s := ReceiveVisualMsg (toy_visual "v1" 3)
             (ReceivePoseMsg (toy_pose "v1" 7)
                (ReceiveLightMsg (toy_light "sun" 1)
                   (OnSelectionMsg (toy_select "v1") toy_empty))) in
  consumer_trace 12 (start s [])
  = [ApVisual (toy_visual "v1" 3); ApLight (toy_light "sun" 1);
     ApPose (toy_pose "v1" 7); ApSelection (Some "v1")]
  ∧ schedule (replicate 12 Consumer) (start s [])
    = Some (mkConfig (PreRender s) None CReturned []).
Proof. by vm_compute. Qed.

Lemma visual_pose_selection_order_witness :
  let s := ReceiveVisualMsg (toy_visual "v1" 3)
             (ReceivePoseMsg (toy_pose "v1" 7)
                (ReceiveLightMsg (toy_light "sun" 1)
                   (OnSelectionMsg (toy_select "v1") toy_empty))) in
  lights (PreRender s) !! "sun"
  = match lights s !! "sun" with
    | Some l => Some l
    | None =>
        (λ m, Light_LoadFromMsg m Light_new) <$> first_light "sun" (lightMsgs s)
    end
  ∧ (∃ e, visuals (PreRender s) !! "v1" = Some e
          ∧ (∃ v, e = SetPose (p_pose (toy_pose "v1" 7)) v)
          ∧ GetPose e = p_pose (toy_pose "v1" 7))
  ∧ latest_pose "v1" (poseMsgs (PreRender s)) = None
  ∧ (∀ sel, selectionMsg s = Some sel → s_str_id sel = "v1" →
            selectionObj (PreRender s) = Some "v1").
Proof.
  intros s.
  destruct (visual_pose_selection_order [] s) as (_ & _ & _ & Hlights & Hsame).
  split; [exact (Hlights "sun")|].
  apply (Hsame "v1" (toy_visual "v1" 3) (toy_pose "v1" 7)); reflexivity.
Defined.


(** The selection that comes between the lookup and the reset is lost:
    the cycle attaches "v1", which it had looked up, and its reset wipes
    the selection of "v2".  No order of the whole callback and the whole
    cycle leaves this scene; the cycle alone does. *)
Example late_selection_is_lost :
  ∃ c, schedule toy_late_selection
         (start toy_selected [OnSelection (toy_select "v2")]) = Some c
       ∧ finished c
       ∧ selectionObj (scene c) = Some "v1" ∧ selectionMsg (scene c) = None
       ∧ scene c = run [Frame] toy_selected
       ∧ scene c ≠ run [Deliver (OnSelection (toy_select "v2")); Frame] toy_selected
       ∧ scene c ≠ run [Frame; Deliver (OnSelection (toy_select "v2"))] toy_selected.
Proof.
  eexists. split; [vm_compute; reflexivity|].
  split; [split; [reflexivity|repeat constructor]|].
  split; [reflexivity|]. split; [reflexivity|].
  split; [vm_compute; reflexivity|]. split.
  - intros Heq. apply (f_equal selectionObj) in Heq. vm_compute in Heq.
    discriminate Heq.
  - intros Heq. apply (f_equal selectionMsg) in Heq. vm_compute in Heq.
    discriminate Heq.
Qed.

Lemma created_camera_is_last_witness :
  GetCamera (GetCameraCount toy_object) (CreateCamera "right" toy_object).2
  = Some (CreateCamera "right" toy_object).1
  ∧ (∀ i, (i < GetCameraCount toy_object)%N →
          GetCamera i (CreateCamera "right" toy_object).2 = GetCamera i toy_object)
  ∧ N.of_nat (length (cameras (CreateCamera "right" toy_object).2))
    = (GetCameraCount toy_object + 1)%N
  ∧ (∀ i, (GetCameraCount toy_object + 1 ≤ i)%N →
          GetCamera i (CreateCamera "right" toy_object).2 = None).
Proof. apply created_camera_is_last. reflexivity. Defined.

Lemma created_user_camera_is_last_witness :
  GetUserCamera (GetUserCameraCount toy_object)
    (CreateUserCamera "user" toy_object).2
  = Some (CreateUserCamera "user" toy_object).1
  ∧ (∀ i, (i < GetUserCameraCount toy_object)%N →
          GetUserCamera i (CreateUserCamera "user" toy_object).2
          = GetUserCamera i toy_object)
  ∧ N.of_nat (length (userCameras (CreateUserCamera "user" toy_object).2))
    = (GetUserCameraCount toy_object + 1)%N
  ∧ (∀ i, (GetUserCameraCount toy_object + 1 ≤ i)%N →
          GetUserCamera i (CreateUserCamera "user" toy_object).2 = None).
Proof. apply created_user_camera_is_last. reflexivity. Defined.

Lemma scene_ids_distinct_witness :
  let scenes := (construct_scenes ["a"; "b"; "c"] 4294967295).1 in
  (∀ k o, scenes !! k = Some o →
          id o = ((4294967295 + N.of_nat k) mod UINT_RANGE)%N)
  ∧ NoDup (id <$> scenes)
  ∧ NoDup (idString <$> scenes).
Proof.
  apply (scene_ids_distinct (H0 := toy_views) ["a"; "b"; "c"] 4294967295);
    unfold UINT_RANGE; simpl; lia.
Defined.

Lemma GetMeshInformation_fills_witness :
  let vs := mesh_vertices (λ v, v + 1000)%N toy_mesh false (subMeshes toy_mesh) in
  let ixs := mesh_indices (subMeshes toy_mesh) in
  GetMeshInformation (λ v, v + 1000)%N toy_mesh
  = Some (N.of_nat (length vs), Some <$> vs,
          index_total (subMeshes toy_mesh),
          (Some <$> ixs)
          ++ replicate (N.to_nat (index_total (subMeshes toy_mesh)) - length ixs)
               None).
Proof. apply GetMeshInformation_fills; reflexivity. Defined.

Lemma indices_all_written_iff_witness :
  ∃ vc vertices ic indices,
    GetMeshInformation (λ v, v + 1000)%N toy_mesh_whole
    = Some (vc, vertices, ic, indices)
    ∧ Forall is_Some vertices
    ∧ (Forall is_Some indices
       ↔ Forall (λ sm, (indexCount (indexData sm) mod 3 = 0)%N)
           (subMeshes toy_mesh_whole)).
Proof. apply indices_all_written_iff; reflexivity. Defined.
